(** * Gavel Graph: cascading precedent retrieval and its benchmark

    A shallow embedding of [app.py] (the interactive retrieval path) and
    [benchmark.py] (the offline evaluation harness).

    Both programs are thin Python wrappers around Cypher queries that are sent
    to a Neo4j store.  The store is modelled as a property graph (nodes with
    properties, typed relationships with their own identity) together with a
    vector index; each Cypher query is modelled by the row pipeline it
    denotes: [CALL ... YIELD] produces rows, [MATCH] and [OPTIONAL MATCH]
    extend them, [WHERE] filters them, [RETURN] with aggregates groups them,
    [ORDER BY] and [LIMIT] order and cut them.

    Python's exceptions and the order of the round trips are modelled by a
    small state-and-exception monad over a log of events.

    Similarity scores are binary64 numbers in the program.  They are rationals
    here: comparisons and [max] are exact on floats, and the one product
    ([relevance_score * 100]) goes through an explicit rounding operator. *)

From Stdlib Require Import List String Ascii ZArith QArith Qminmax Qround Bool Arith Lia.
From Stdlib Require Import Sorting.Sorted Permutation.
Import ListNotations.

Set Warnings "-abstract-large-number".

Open Scope string_scope.
Open Scope Z_scope.

(* ------------------------------------------------------------------ *)
(** ** Python and Cypher strings *)

Module Str.

(** [toLower] of Cypher and [str.lower] of Python, on the ASCII range. *)
Definition lower_ascii (c : ascii) : ascii :=
  let n := nat_of_ascii c in
  if andb (Nat.leb 65 n) (Nat.leb n 90) then ascii_of_nat (n + 32) else c.

Fixpoint lower (s : string) : string :=
  match s with
  | EmptyString => EmptyString
  | String c t => String (lower_ascii c) (lower t)
  end.

(** The characters [str.strip] removes: tab, line feed, vertical tab, form
    feed, carriage return, the four separators 28..31 and the space. *)
Definition is_space (c : ascii) : bool :=
  let n := nat_of_ascii c in
  orb (andb (Nat.leb 9 n) (Nat.leb n 13))
      (orb (andb (Nat.leb 28 n) (Nat.leb n 31)) (Nat.eqb n 32)).

Fixpoint lstrip (s : string) : string :=
  match s with
  | EmptyString => EmptyString
  | String c t => if is_space c then lstrip t else s
  end.

Fixpoint rev_append (s acc : string) : string :=
  match s with
  | EmptyString => acc
  | String c t => rev_append t (String c acc)
  end.

Definition rev (s : string) : string := rev_append s EmptyString.

Definition strip (s : string) : string := rev (lstrip (rev (lstrip s))).

(** [s CONTAINS p] of Cypher, [p in s] of Python. *)
Fixpoint contains (p s : string) : bool :=
  if String.prefix p s then true
  else match s with
       | EmptyString => false
       | String _ t => contains p t
       end.

(** [s[:n]], a Python slice from the start. *)
Fixpoint take (n : nat) (s : string) : string :=
  match n, s with
  | O, _ => EmptyString
  | _, EmptyString => EmptyString
  | S k, String c t => String c (take k t)
  end.

Fixpoint replicate (n : nat) (c : ascii) : string :=
  match n with
  | O => EmptyString
  | S k => String c (replicate k c)
  end.

(** Truthiness of an optional string: [None] and [''] are falsy. *)
Definition truthy (o : option string) : bool :=
  match o with
  | Some (String _ _) => true
  | _ => false
  end.

End Str.

(* ------------------------------------------------------------------ *)
(** ** Lists: the helpers the query pipeline needs *)

Section ListHelpers.

Context {A : Type}.
Variable dec : forall x y : A, {x = y} + {x <> y}.

(** [DISTINCT]: every value once, in the order of first occurrence. *)
Definition distinct (l : list A) : list A := rev (nodup dec (rev l)).

Definition memb (x : A) (l : list A) : bool :=
  if in_dec dec x l then true else false.

End ListHelpers.

(** Null-skipping of Cypher aggregates: [collect] and [count] ignore nulls. *)
Fixpoint non_null {A : Type} (l : list (option A)) : list A :=
  match l with
  | [] => []
  | Some x :: t => x :: non_null t
  | None :: t => non_null t
  end.

Section InsertionSort.

Context {A : Type}.
(** [before x y] holds when [x] may stand before [y] in the output. *)
Variable before : A -> A -> bool.

Fixpoint insert_sorted (x : A) (l : list A) : list A :=
  match l with
  | [] => [x]
  | y :: t => if before x y then x :: l else y :: insert_sorted x t
  end.

(** [ORDER BY]: a stable sort. *)
Definition order_by (l : list A) : list A :=
  fold_right insert_sorted [] l.

End InsertionSort.

(* ------------------------------------------------------------------ *)
(** ** The property graph *)

Module Store.

Inductive Label := CASE | TEXT.

Inductive RelType := CITES | HAS_TEXT.

(** A node of the store.  [elementId] is the identifier Neo4j gives it;
  every property is nullable. *)
Record Node := mkNode {
elementId : string;
label : Label;
name : option string;
offense : option string;
decisionSummary : option string;
text : option string
}.

(** A relationship.  The store is a multigraph: two relationships with the
  same ends are different relationships, told apart by their position in
  [relationships]. *)
Record Relationship := mkRel {
rel_type : RelType;
start_node : string;
end_node : string
}.

Record Graph := mkGraph {
nodes : list Node;
relationships : list Relationship
}.

Definition Label_eqb (a b : Label) : bool :=
match a, b with
| CASE, CASE | TEXT, TEXT => true
| _, _ => false
end.

Definition RelType_eqb (a b : RelType) : bool :=
match a, b with
| CITES, CITES | HAS_TEXT, HAS_TEXT => true
| _, _ => false
end.

Definition get_node (g : Graph) (i : string) : option Node :=
find (fun n => String.eqb (elementId n) i) (nodes g).

(** The relationships of one type, each with its identity. *)
Definition rels_of (g : Graph) (ty : RelType) : list (nat * Relationship) :=
filter (fun ir => RelType_eqb (rel_type (snd ir)) ty)
       (combine (seq 0 (List.length (relationships g))) (relationships g)).

(** The relationships of type [ty] leaving the node [i]. *)
Definition outgoing (g : Graph) (ty : RelType) (i : string)
: list (nat * Relationship) :=
filter (fun ir => String.eqb (start_node (snd ir)) i) (rels_of g ty).

(** [(a)-[:CITES*1..2]->(p)]: the end identifiers of every path of one or two
  [CITES] relationships that leaves the node [a], one entry per path.
  A path never uses one relationship twice. *)
Definition cites_1_2 (g : Graph) (a : string) : list string :=
flat_map
  (fun ir1 =>
     end_node (snd ir1)
     :: map (fun ir2 => end_node (snd ir2))
            (filter (fun ir2 => negb (Nat.eqb (fst ir2) (fst ir1)))
                    (outgoing g CITES (end_node (snd ir1)))))
  (outgoing g CITES a).

(** The end nodes of those paths that carry the label [l]. *)
Definition reach_1_2 (g : Graph) (a : string) (l : Label) : list Node :=
filter (fun p => Label_eqb (label p) l)
       (non_null (map (get_node g) (cites_1_2 g a))).

(** [OPTIONAL MATCH (p)-[:HAS_TEXT]->(t:TEXT)]: one binding per matching
  relationship, and a single null binding when there is none. *)
Definition optional_text (g : Graph) (p : string) : list (option Node) :=
match filter (fun t => Label_eqb (label t) TEXT)
             (non_null (map (fun ir => get_node g (end_node (snd ir)))
                            (outgoing g HAS_TEXT p))) with
| [] => [None]
| ts => map Some ts
end.

Definition text_of (t : option Node) : option string :=
match t with
| Some n => text n
| None => None
end.

End Store.

(* ------------------------------------------------------------------ *)
(** ** The world outside the program, and the monad of round trips *)

(** An embedding vector.  Python tests it with [if emb:], which is true exactly
    when the list is not empty. *)
Definition Embedding := list Q.

(** What the two programs talk to.
    - [graph] is the content of the Neo4j store;
    - [queryNodes index_name k embedding] is the procedure
      [db.index.vector.queryNodes], yielding nodes with their scores;
    - [embed_content content] is the embedding service; [None] stands for any
      exception it raises;
    - [store_down n] tells whether the [n]-th round trip to the store raises
      (store unreachable, transient failure);
    - [driver] tells whether [get_driver] hands out a driver. *)
Record World := mkWorld {
  graph : Store.Graph;
  queryNodes : string -> nat -> Embedding -> list (Store.Node * Q);
  embed_content : string -> option Embedding;
  store_down : nat -> bool;
  driver : bool
}.

(** What an observer of a run sees, in the order it happens. *)
Inductive Event :=
| EmbedContent (content : string)
| GraphRagSearch (strategy : string) (apply_filter : bool)
| VectorOnlySearch
| RetrieveCases (original_id : string) (use_graph : bool).

Record St := mkSt {
  clock : nat;
  log : list Event
}.

Inductive Outcome (A : Type) :=
| Ok (a : A)
| Raised.
Arguments Ok {A} a.
Arguments Raised {A}.

Definition M (A : Type) : Type := St -> Outcome A * St.

Definition ret {A : Type} (a : A) : M A := fun st => (Ok a, st).

Definition bind {A B : Type} (m : M A) (k : A -> M B) : M B :=
  fun st =>
    match m st with
    | (Ok a, st') => k a st'
    | (Raised, st') => (Raised, st')
    end.

(** [try: m except: h]. *)
Definition try_except {A : Type} (m : M A) (h : M A) : M A :=
  fun st =>
    match m st with
    | (Ok a, st') => (Ok a, st')
    | (Raised, st') => h st'
    end.

Definition emit (e : Event) : M unit :=
  fun st => (Ok tt, mkSt (clock st) (log st ++ [e])).

Declare Scope monad_scope.
Delimit Scope monad_scope with monad.
Notation "x <- m ;; k" := (bind m (fun x => k))
  (at level 61, m at next level, right associativity) : monad_scope.
Notation "m ;;; k" := (bind m (fun _ => k))
  (at level 61, right associativity) : monad_scope.

Section Effects.

Variable w : World.

(** [session.run(query, ...)] for a query whose rows are [rows]: one round
    trip, which raises when the store is down at that moment. *)
Definition session_run {A : Type} (rows : list A) : M (list A) :=
  fun st =>
    let st' := mkSt (S (clock st)) (log st) in
    if store_down w (clock st) then (Raised, st') else (Ok rows, st').

(** [genai.embed_content(model=..., content=content, ...)['embedding']]. *)
Definition genai_embed_content (content : string) : M Embedding :=
  fun st =>
    let st' := mkSt (clock st) (log st ++ [EmbedContent content]) in
    match embed_content w content with
    | Some e => (Ok e, st')
    | None => (Raised, st')
    end.

End Effects.

Definition initial : St := mkSt 0 [].

(* ------------------------------------------------------------------ *)
(** ** app.py *)

Module App.

Import Store.
Local Open Scope monad_scope.

Definition NEO4J_VECTOR_INDEX : string := "case-text-embeddings".

(** The dictionary [record.data()] gives for one returned row. *)
Record Result := mkResult {
  id : string;
  title : option string;
  offense : option string;
  decision : option string;
  full_text : option string;
  citation_count : Z;
  found_via : list string;
  relevance_score : Q
}.

(** [get_embedding]: the text goes to the service as it is. *)
Definition get_embedding (w : World) (text : string) : M (option Embedding) :=
  try_except
    (e <- genai_embed_content w text ;; ret (Some e))
    (ret None).

Definition get_driver (w : World) : option unit :=
  if driver w then Some tt else None.

(** *** Bronze: the vector index alone *)

(** The rows of the query of [vector_only_search], after [ORDER BY]. *)
Definition vector_only_rows (w : World) (embedding : Embedding) (top_k : nat)
  : list Result :=
  order_by
    (fun a b => Qle_bool (relevance_score b) (relevance_score a))
    (flat_map
       (fun cs =>
          map (fun t =>
                 mkResult (elementId (fst cs)) (name (fst cs))
                          (Store.offense (fst cs)) (decisionSummary (fst cs))
                          (text_of t) 0 [] (snd cs))
              (optional_text (graph w) (elementId (fst cs))))
       (queryNodes w NEO4J_VECTOR_INDEX top_k embedding)).

Definition vector_only_search (w : World) (embedding : Embedding)
           (top_k : nat) : M (list Result) :=
  emit VectorOnlySearch ;;;
  match get_driver w with
  | None => ret []
  | Some _ =>
      try_except (session_run w (vector_only_rows w embedding top_k))
                 (ret [])
  end.

(** *** Gold and Silver: the citation graph *)

(** The [WHERE] clause the function splices into the query. *)
Inductive FilterClause :=
| NoClause
| DecisionContainsAny (keywords : list string).

Definition filter_clause (strategy : string) (apply_filter : bool)
  : FilterClause :=
  if apply_filter then
    if String.eqb strategy "defense"
    then DecisionContainsAny ["reverse"; "acquit"]
    else DecisionContainsAny ["affirm"]
  else NoClause.

(** A null [decisionSummary] makes the predicate null, and [WHERE] drops
    the row. *)
Definition holds (fc : FilterClause) (precedent : Node) : bool :=
  match fc with
  | NoClause => true
  | DecisionContainsAny keywords =>
      match decisionSummary precedent with
      | None => false
      | Some d => existsb (fun k => Str.contains k (Str.lower d)) keywords
      end
  end.

(** One row of the query before [RETURN]. *)
Record Row := mkRow {
  anchorCase : Node;
  score : Q;
  precedent : Node;
  precedentText : option Node
}.

(** The precedents one anchor contributes, one per citation path. *)
Definition precedents_of (g : Graph) (fc : FilterClause) (anchor : Node)
  : list Node :=
  filter (holds fc) (reach_1_2 g (elementId anchor) CASE).

Definition match_rows (w : World) (fc : FilterClause) (top_k : nat)
           (embedding : Embedding) : list Row :=
  flat_map
    (fun a =>
       flat_map
         (fun p => map (mkRow (fst a) (snd a) p)
                       (optional_text (graph w) (elementId p)))
         (precedents_of (graph w) fc (fst a)))
    (queryNodes w NEO4J_VECTOR_INDEX top_k embedding).

(** The grouping key of [RETURN]: its five expressions that are not
    aggregates. *)
Definition Key : Type :=
  (string * option string * option string * option string * option string).

Definition key_of (r : Row) : Key :=
  (elementId (precedent r), name (precedent r), Store.offense (precedent r),
   decisionSummary (precedent r), text_of (precedentText r)).

Definition Key_dec : forall x y : Key, {x = y} + {x <> y}.
Proof.
  repeat decide equality.
Defined.

Definition group (k : Key) (rows : list Row) : list Row :=
  filter (fun r => if Key_dec (key_of r) k then true else false) rows.

(** [max(score)] over a group; a group always has a row. *)
Definition max_score (l : list Q) : Q :=
  match l with
  | [] => 0%Q
  | s :: t => fold_left Qmax t s
  end.

Definition aggregate (rows : list Row) (k : Key) : Result :=
  let '(i, t, o, d, f) := k in
  let grp := group k rows in
  mkResult i t o d f
           (Z.of_nat (List.length grp))
           (firstn 3 (distinct string_dec
                        (non_null (map (fun r => name (anchorCase r)) grp))))
           (max_score (map score grp)).

(** [ORDER BY citation_count DESC, relevance_score DESC]. *)
Definition ranks_before (a b : Result) : bool :=
  orb (Z.ltb (citation_count b) (citation_count a))
      (andb (Z.eqb (citation_count a) (citation_count b))
            (Qle_bool (relevance_score b) (relevance_score a))).

Definition graph_rag_rows (w : World) (fc : FilterClause) (top_k : nat)
           (embedding : Embedding) : list Result :=
  let rows := match_rows w fc top_k embedding in
  firstn 5
    (order_by ranks_before
       (map (aggregate rows) (distinct Key_dec (map key_of rows)))).

Definition graph_rag_search (w : World) (embedding : Embedding)
           (strategy : string) (top_k_anchors : nat) (apply_filter : bool)
  : M (list Result) :=
  emit (GraphRagSearch strategy apply_filter) ;;;
  match get_driver w with
  | None => ret []
  | Some _ =>
      try_except
        (session_run w
           (graph_rag_rows w (filter_clause strategy apply_filter)
                           top_k_anchors embedding))
        (ret [])
  end.

(** *** The cascade of [main] *)

Definition is_empty {A : Type} (l : list A) : bool :=
  match l with
  | [] => true
  | _ => false
  end.

(** Lines 373-382 of [main]: the pair is [(results, method)]. *)
Definition cascade (w : World) (emb : Embedding) (strat_key : string)
  : M (list Result * string) :=
  results <- graph_rag_search w emb strat_key 5 true ;;
  rm <- (if is_empty results
         then (r <- graph_rag_search w emb strat_key 5 false ;;
               ret (r, "Silver"))
         else ret (results, "Gold")) ;;
  if is_empty (fst rm)
  then (r <- vector_only_search w emb 5 ;; ret (r, "Bronze"))
  else ret rm.

(** The [ANALYZE] branch of [main]: [None] is the branch that shows
    "Embedding API Error." and stores nothing. *)
Definition analyze (w : World) (input_text strat_key : string)
  : M (option (list Result * string)) :=
  emb <- get_embedding w input_text ;;
  match emb with
  | Some (x :: v) => (rm <- cascade w (x :: v) strat_key ;; ret (Some rm))
  | _ => ret None
  end.

(** *** The confidence shown on a card *)

(** [int(x)] of Python on a float: the integer part, towards zero. *)
Definition int (x : Q) : Z := Z.quot (Qnum x) (Zpos (Qden x)).

Section Confidence.

(** [fl] rounds an exact product to the binary64 number Python
    computes. *)
Variable fl : Q -> Q.

Definition confidence (case : Result) : Z :=
  let conf := int (fl (relevance_score case * 100)%Q)
              + citation_count case * 5 in
  Z.min conf 99.

End Confidence.

End App.

(* ------------------------------------------------------------------ *)
(** ** benchmark.py *)

Module Benchmark.

Import Store.
Local Open Scope monad_scope.

Definition NEO4J_VECTOR_INDEX : string := "case-text-embeddings".

(** The dictionaries [{"id": ..., "offense": ...}], both of the ground
    truth and of the retrieved lists. *)
Record Item := mkItem {
  id : string;
  offense : option string
}.

(** [get_embedding]: at most the first 9000 characters are submitted. *)
Definition get_embedding (w : World) (text : string) : M (option Embedding) :=
  try_except
    (e <- genai_embed_content w (Str.take 9000 text) ;; ret (Some e))
    (ret None).

Definition is_some {A : Type} (o : option A) : bool :=
  match o with
  | Some _ => true
  | None => false
  end.

(** A returned row before the list comprehension drops the score. *)
Definition Scored : Type := (string * option string * Q).

Definition by_score_desc (a b : Scored) : bool := Qle_bool (snd b) (snd a).

Definition differs (original_id : string) (n : Node) : bool :=
  negb (String.eqb (elementId n) original_id).

(** The anchors of the graph query: the index hits other than the
    original. *)
Definition anchors (w : World) (embedding : Embedding) (original_id : string)
  : list (Node * Q) :=
  filter (fun a => differs original_id (fst a))
         (queryNodes w NEO4J_VECTOR_INDEX 50 embedding).

(** The rows of the graph query before [RETURN]: precedent and score of
    the anchor, one row per citation path. *)
Definition graph_match (w : World) (embedding : Embedding)
           (original_id : string) : list (Node * Q) :=
  flat_map
    (fun a =>
       map (fun p => (p, snd a))
           (filter (fun p => is_some (Store.offense p))
                   (reach_1_2 (graph w) (elementId (fst a)) CASE)))
    (anchors w embedding original_id).

Definition GKey : Type := (string * option string).

Definition GKey_dec : forall x y : GKey, {x = y} + {x <> y}.
Proof.
  repeat decide equality.
Defined.

Definition gkey_of (r : Node * Q) : GKey :=
  (elementId (fst r), Store.offense (fst r)).

(** [sum(score)] over the rows of one key. *)
Definition sum_score (rows : list (Node * Q)) (k : GKey) : Q :=
  fold_left Qplus
    (map snd (filter (fun r => if GKey_dec (gkey_of r) k then true else false)
                     rows))
    0%Q.

Definition graph_query (w : World) (embedding : Embedding)
           (original_id : string) : list Scored :=
  let rows := graph_match w embedding original_id in
  firstn 10
    (order_by by_score_desc
       (map (fun k => (fst k, snd k, sum_score rows k))
            (distinct GKey_dec (map gkey_of rows)))).

Definition vector_query (w : World) (embedding : Embedding)
           (original_id : string) : list Scored :=
  firstn 10
    (order_by by_score_desc
       (map (fun ps => (elementId (fst ps), Store.offense (fst ps), snd ps))
            (filter (fun ps => andb (differs original_id (fst ps))
                                    (is_some (Store.offense (fst ps))))
                    (queryNodes w NEO4J_VECTOR_INDEX 10 embedding)))).

(** [retrieve_cases]: nothing catches a failure of the round trip. *)
Definition retrieve_cases (w : World) (embedding : Embedding)
           (original_id : string) (use_graph : bool) : M (list Item) :=
  emit (RetrieveCases original_id use_graph) ;;;
  results <- session_run w
               (if use_graph
                then graph_query w embedding original_id
                else vector_query w embedding original_id) ;;
  ret (map (fun r => mkItem (fst (fst r)) (snd (fst r))) results).

(** [str(x).strip().lower()] on ASCII text. *)
Definition ascii_normalize (s : string) : string := Str.lower (Str.strip s).

Definition true_ids (ground_truth_list : list Item) : list string :=
  map id ground_truth_list.

Section Normalized.

(** [normalize s] is [str(s).strip().lower()].  Python trims and lowercases
    by the Unicode tables (a no-break space is trimmed, a capital of any
    script is lowered); the scoring is modelled for every such function, and
    [ascii_normalize] is what it does on ASCII text. *)
Variable normalize : string -> string.

Definition true_offenses (ground_truth_list : list Item) : list string :=
  flat_map
    (fun item =>
       match offense item with
       | Some s => if Str.truthy (Some s) then [normalize s] else []
       | None => []
       end)
    ground_truth_list.

Definition found_offense (found : Item) : string :=
  match offense found with
  | Some s => if Str.truthy (Some s) then normalize s else ""
  | None => ""
  end.

(** The [for] loop of [calculate_score], with [max_points] as it stands
    when the loop reaches the rest of the list. *)
Fixpoint scan (ids offenses : list string) (retrieved_list : list Item)
         (max_points : Q) : Q :=
  match retrieved_list with
  | [] => max_points
  | found :: rest =>
      if memb string_dec (id found) ids then 1%Q
      else scan ids offenses rest
                (if memb string_dec (found_offense found) offenses
                 then (1 # 2)%Q else max_points)
  end.

Definition calculate_score (ground_truth_list retrieved_list : list Item) : Q :=
  scan (true_ids ground_truth_list) (true_offenses ground_truth_list)
       retrieved_list 0%Q.

End Normalized.

End Benchmark.

(* ------------------------------------------------------------------ *)
(** ** The specification's wording of three quantities

    These follow the words of the specification, to be compared with what the
    code computes. *)

Module Worded.

Import Store.

(** [round(x)] of Python: to the nearest integer, a tie to the even one. *)
Definition py_round (x : Q) : Z :=
  let f := Qfloor x in
  match Qcompare (x - inject_Z f) (1 # 2) with
  | Lt => f
  | Gt => f + 1
  | Eq => if Z.even f then f else f + 1
  end.

(** "confidence = min(round(relevance_score * 100) + citation_count * 5,
    99)". *)
Definition confidence (fl : Q -> Q) (case : App.Result) : Z :=
  Z.min (py_round (fl (App.relevance_score case * 100)%Q)
         + App.citation_count case * 5) 99.

(** The anchors whose traversal reaches the case [i]. *)
Definition reaching (w : World) (fc : App.FilterClause) (top_k : nat)
           (embedding : Embedding) (i : string) : list (Node * Q) :=
  filter (fun a => existsb (fun p => String.eqb (elementId p) i)
                           (App.precedents_of (graph w) fc (fst a)))
         (queryNodes w App.NEO4J_VECTOR_INDEX top_k embedding).

(** "citation_count = number of distinct anchors that reached it". *)
Definition citation_count (w : World) (fc : App.FilterClause) (top_k : nat)
           (embedding : Embedding) (i : string) : Z :=
  Z.of_nat
    (List.length
       (distinct string_dec
          (map (fun a => elementId (fst a))
               (reaching w fc top_k embedding i)))).

(** "any retrieved id exactly matches a ground-truth id". *)
Definition hard_match (ground_truth retrieved : list Benchmark.Item) : Prop :=
  exists f g, In f retrieved /\ In g ground_truth
              /\ Benchmark.id f = Benchmark.id g.

(** "any retrieved item's normalized offense (case-insensitive, trimmed)
    matches any ground-truth offense". *)
Definition soft_match (normalize : string -> string)
           (ground_truth retrieved : list Benchmark.Item) : Prop :=
  exists f g sf sg,
    In f retrieved /\ In g ground_truth
    /\ Benchmark.offense f = Some sf /\ Benchmark.offense g = Some sg
    /\ normalize sf = normalize sg.

(** The three cases of the scoring function, as worded. *)
Definition score_cases (normalize : string -> string)
           (ground_truth retrieved : list Benchmark.Item) : Prop :=
  ground_truth <> [] ->
  (hard_match ground_truth retrieved ->
   Benchmark.calculate_score normalize ground_truth retrieved = 1%Q)
  /\ (~ hard_match ground_truth retrieved ->
      soft_match normalize ground_truth retrieved ->
      Benchmark.calculate_score normalize ground_truth retrieved = (1 # 2)%Q)
  /\ (~ hard_match ground_truth retrieved ->
      ~ soft_match normalize ground_truth retrieved ->
      Benchmark.calculate_score normalize ground_truth retrieved = 0%Q).

End Worded.

(* ------------------------------------------------------------------ *)
(** ** Vocabulary of the properties *)

Module Terms.

Import Store.

Definition opt_string_dec : forall x y : option string, {x = y} + {x <> y}.
Proof.
  repeat decide equality.
Defined.



(** No node of the store has two attached texts that differ. *)
Definition single_text (g : Graph) : bool :=
  forallb
    (fun n =>
       Nat.leb (List.length
                  (distinct opt_string_dec
                            (map text_of (optional_text g (elementId n)))))
               1)
    (nodes g).

(** [a] may stand before [b] under
    [ORDER BY citation_count DESC, relevance_score DESC]. *)
Definition ranked (a b : App.Result) : Prop :=
  App.citation_count b < App.citation_count a
  \/ (App.citation_count a = App.citation_count b
      /\ (App.relevance_score b <= App.relevance_score a)%Q).

(** A retrieved item is a hard match when its id is a ground-truth id, a
    soft match when its normalized offense (the empty string when it has
    none) is the normalized offense of a ground-truth item that has one. *)
Definition hard (ground_truth_list : list Benchmark.Item)
           (found : Benchmark.Item) : Prop :=
  In (Benchmark.id found) (Benchmark.true_ids ground_truth_list).

Definition soft (normalize : string -> string)
           (ground_truth_list : list Benchmark.Item)
           (found : Benchmark.Item) : Prop :=
  In (Benchmark.found_offense normalize found)
     (Benchmark.true_offenses normalize ground_truth_list).

End Terms.

(* ------------------------------------------------------------------ *)
(** ** Small stores to run the programs on *)

Module Fixtures.

Import Store.

Definition case (i : string) (d : option string) : Node :=
  mkNode i CASE (Some ("Case " ++ i)) (Some "Theft") d None.

Definition opinion (i t : string) : Node :=
  mkNode i TEXT None None None (Some t).

Definition X : Node := case "X" None.
Definition B : Node := case "B" None.
Definition Y : Node := case "Y" (Some "Conviction affirmed").

(** [X] cites [Y] directly and through [B]. *)
Definition two_paths : Graph :=
  mkGraph [X; B; Y]
          [mkRel CITES "X" "Y"; mkRel CITES "X" "B"; mkRel CITES "B" "Y"].

(** [X] cites [Y]; two opinions with different texts hang on [Y]. *)
Definition two_texts : Graph :=
  mkGraph [X; Y; opinion "T1" "first opinion"; opinion "T2" "second opinion"]
          [mkRel CITES "X" "Y";
           mkRel HAS_TEXT "Y" "T1"; mkRel HAS_TEXT "Y" "T2"].

(** [B] cites [X]. *)
Definition cited_source : Graph :=
  mkGraph [X; B] [mkRel CITES "B" "X"].

(** A world over [g] whose index ranks [hits], whose embedding service
    answers and whose store is up. *)
Definition world (g : Graph) (hits : list (Node * Q)) : World :=
  mkWorld g (fun _ k _ => firstn k hits) (fun _ => Some [1%Q])
          (fun _ => false) true.

(** The same world with the store down at every round trip. *)
Definition down (g : Graph) (hits : list (Node * Q)) : World :=
  mkWorld g (fun _ k _ => firstn k hits) (fun _ => Some [1%Q])
          (fun _ => true) true.

Definition emb : Embedding := [1%Q].

Definition vector_hit (relevance : Q) : App.Result :=
  App.mkResult "X" None None None None 0 [] relevance.

End Fixtures.

(* ------------------------------------------------------------------ *)
(** ** More vocabulary *)

Module Views.

(** The two tests of the loop of [calculate_score], on one retrieved item. *)
Definition is_hard (g : list Benchmark.Item) (found : Benchmark.Item) : bool :=
  memb string_dec (Benchmark.id found) (Benchmark.true_ids g).

Definition is_soft (normalize : string -> string) (g : list Benchmark.Item)
           (found : Benchmark.Item) : bool :=
  memb string_dec (Benchmark.found_offense normalize found)
       (Benchmark.true_offenses normalize g).

(** One tier call from [st] to [st']: one event, and one round trip to the
    store when there is a driver. *)
Definition one_call (w : World) (st st' : St) (e : Event) : Prop :=
  log st' = (log st ++ [e])%list
  /\ clock st' = (clock st + (if driver w then 1 else 0))%nat.

End Views.

(* ------------------------------------------------------------------ *)
(** ** app.py: the memo, the citation map and the cards *)

From Stdlib Require Import DecimalString.

Module AppView.

Import App.

(** [str(x)] and [f"{x}"] of a nullable string. *)
Definition py_str (o : option string) : string :=
  match o with
  | Some s => s
  | None => "None"
  end.

(** [str(n)] of a natural number. *)
Definition py_int (n : nat) : string := NilEmpty.string_of_uint (Nat.to_uint n).

Definition nl : string := String (ascii_of_nat 10) EmptyString.

(** The double quote. *)
Definition dq : string := String (ascii_of_nat 34) EmptyString.

(** [s.replace(old, new)] for single characters. *)
Fixpoint replace_char (old new : ascii) (s : string) : string :=
  match s with
  | EmptyString => EmptyString
  | String c t =>
      String (if Ascii.eqb c old then new else c) (replace_char old new t)
  end.

(** *** generate_strategic_analysis *)

(** One iteration of the loop that builds [context_str]; [i] counts from
    0. *)
Definition context_entry (i : nat) (case : Result) : string :=
  "[PRECEDENT #" ++ py_int (i + 1) ++ "] " ++ py_str (title case)
  ++ " (" ++ py_str (decision case) ++ ")" ++ nl
  ++ "Excerpt: " ++ Str.take 400 (py_str (full_text case)) ++ "..."
  ++ nl ++ nl.

Definition context_str (retrieved_cases : list Result) : string :=
  fold_left (fun acc ic => acc ++ context_entry (fst ic) (snd ic))
            (combine (seq 0 (List.length retrieved_cases)) retrieved_cases)
            "".

Definition perspective (strategy : string) : string :=
  if String.eqb strategy "defense" then "DEFENSE ATTORNEY" else "PROSECUTOR".

Definition goal (strategy : string) : string :=
  if String.eqb strategy "defense"
  then "securing an acquittal" else "securing a conviction".

Definition caveat (method_used : string) : string :=
  if Str.contains "Vector" method_used
  then "Note: Direct precedents matching the strategy were scarce. These cases were selected based on factual similarity."
  else "".

Definition prompt (new_case_text : string) (retrieved_cases : list Result)
           (strategy method_used : string) : string :=
  "You are a senior Texas " ++ perspective strategy ++ ". Goal: "
  ++ goal strategy ++ "." ++ nl
  ++ "    CRITICAL: NEVER use placeholders like [Name]. Use generic terms like "
  ++ dq ++ "The Defendant" ++ dq ++ "." ++ nl
  ++ "    Write a concise strategic memo based on these precedents. "
  ++ caveat method_used ++ nl
  ++ "    " ++ nl
  ++ "    PRECEDENTS:" ++ nl
  ++ "    " ++ context_str retrieved_cases ++ nl
  ++ "    CASE FACTS: " ++ new_case_text ++ nl
  ++ "    " ++ nl
  ++ "    Format neatly with Markdown. Start directly with the text." ++ nl
  ++ "    ".

(** The generative model: [inl text] is the text of its answer, [inr e] an
    exception whose message is [e]. *)
Definition Llm : Type := string -> string + string.

Definition generate_strategic_analysis (llm : Llm) (new_case_text : string)
           (retrieved_cases : list Result) (strategy method_used : string)
  : string :=
  if is_empty retrieved_cases then "No relevant precedents found."
  else
    match llm (prompt new_case_text retrieved_cases strategy method_used) with
    | inl text => text
    | inr e => "Error: " ++ e
    end.

(** *** render_citation_graph *)

Definition BG : string := "#F2F0E9".
Definition USER : string := "#C67B5C".
Definition GOOD : string := "#7A9B76".
Definition BAD : string := "#8B7D6B".
Definition NEUTRAL : string := "#A8A29E".

(** The keyword arguments of [Node], [Edge] and [Config] that the function
    passes; an argument it leaves out is [None]. *)
Record Font := mkFont {
  font_color : string;
  face : option string;
  font_size : option Z
}.

Record Node := mkNode {
  node_id : string;
  label : string;
  node_title : string;
  size : Z;
  color : string;
  font : Font;
  shape : option string
}.

Record Edge := mkEdge {
  source : string;
  target : string;
  edge_color : string;
  width : Z;
  edge_type : option string
}.

Record Config := mkConfig {
  config_width : string;
  height : Z;
  directed : bool;
  physics : bool;
  hierarchical : bool;
  backgroundColor : string;
  nodeHighlightBehavior : bool;
  highlightColor : string
}.

(** The three variables the loop updates; [existing_nodes] is a set. *)
Record Canvas := mkCanvas {
  nodes : list Node;
  edges : list Edge;
  existing_nodes : list string
}.

(** ["reverse" in str(d).lower() or "acquit" in str(d).lower()]. *)
Definition is_fav (decision : option string) : bool :=
  orb (Str.contains "reverse" (Str.lower (py_str decision)))
      (Str.contains "acquit" (Str.lower (py_str decision))).

Definition node_color (strategy : string) (fav : bool) : string :=
  if orb (andb (String.eqb strategy "defense") fav)
         (andb (String.eqb strategy "prosecution") (negb fav))
  then GOOD else BAD.

Definition source_id_of (source_case_name : string) : string :=
  "SRC_" ++ replace_char " " "_" source_case_name.

(** The body of the inner loop, for one name of [found_via]. *)
Definition add_source (cid : string) (c : Canvas) (source_case_name : string)
  : Canvas :=
  let source_id := source_id_of source_case_name in
  let c1 :=
    if memb string_dec source_id (existing_nodes c) then c
    else mkCanvas
           (nodes c
            ++ [mkNode source_id (Str.take 10 source_case_name ++ "..")
                       source_case_name 15 NEUTRAL
                       (mkFont "#666" None (Some 10)) (Some "dot")])
           (edges c)
           (source_id :: existing_nodes c) in
  mkCanvas (nodes c1)
           (edges c1 ++ [mkEdge source_id cid "#D6D1C9" 1 (Some "curved")])
           (existing_nodes c1).

(** The body of the outer loop.  [case['title'][:15]] raises a [TypeError]
    when the title is [None]. *)
Definition add_case (strategy : string) (c : Canvas) (case : Result)
  : Outcome Canvas :=
  let cid := id case in
  if memb string_dec cid (existing_nodes c) then Ok c
  else
    let col := node_color strategy (is_fav (decision case)) in
    match title case with
    | None => Raised
    | Some t =>
        let lbl := Str.take 15 t ++ "..." in
        Ok (fold_left
              (add_source cid) (found_via case)
              (mkCanvas
                 (nodes c
                  ++ [mkNode cid lbl t 25 col
                             (mkFont "#2C2520" None (Some 12)) None])
                 (edges c ++ [mkEdge "USER" cid "#A68A64" 2 None])
                 (cid :: existing_nodes c)))
    end.

Fixpoint add_cases (strategy : string) (results : list Result) (c : Canvas)
  : Outcome Canvas :=
  match results with
  | [] => Ok c
  | case :: rest =>
      match add_case strategy c case with
      | Ok c' => add_cases strategy rest c'
      | Raised => Raised
      end
  end.

Definition user_node : Node :=
  mkNode "USER" "Current Case" "Your Case" 40 USER
         (mkFont "#2C2520" (Some "Lato") None) (Some "dot").

Definition config : Config :=
  mkConfig "100%" 350 true true false BG true "#A68A64".

Definition render_citation_graph (results : list Result) (strategy : string)
  : Outcome (list Node * list Edge * Config) :=
  match add_cases strategy results (mkCanvas [user_node] [] ["USER"]) with
  | Ok c => Ok (nodes c, edges c, config)
  | Raised => Raised
  end.

(** *** The cards of [main] *)

(** [html.escape(s)]. *)
Definition escape_char (c : ascii) : string :=
  let n := nat_of_ascii c in
  if Nat.eqb n 38 then "&amp;"
  else if Nat.eqb n 60 then "&lt;"
  else if Nat.eqb n 62 then "&gt;"
  else if Nat.eqb n 34 then "&quot;"
  else if Nat.eqb n 39 then "&#x27;"
  else String c EmptyString.

Fixpoint html_escape (s : string) : string :=
  match s with
  | EmptyString => EmptyString
  | String c t => escape_char c ++ html_escape t
  end.

(** What the loop over the results puts on the page: the card of a case
    with the values it interpolates, then the body of its expander. *)
Inductive Widget :=
| Card (accent card_title : string) (conf : Z) (card_decision excerpt : string)
| Opinion (opinion_title body : string).

Definition accent_of (strat_key : string) (case : Result) : string :=
  if andb (String.eqb strat_key "defense") (is_fav (decision case))
  then "#7A9B76" else "#C67B5C".

Definition card_of (fl : Q -> Q) (strat_key : string) (case : Result) : Widget :=
  Card (accent_of strat_key case) (py_str (title case)) (confidence fl case)
       (py_str (decision case)) (Str.take 120 (py_str (full_text case))).

(** The loop: [html.escape(case.get('full_text', ...))] raises an
    [AttributeError] when the value under the key is [None]. *)
Fixpoint show_precedents (fl : Q -> Q) (strat_key : string)
         (results : list Result) : list Widget * Outcome unit :=
  match results with
  | [] => ([], Ok tt)
  | case :: rest =>
      match full_text case with
      | None => ([card_of fl strat_key case], Raised)
      | Some t =>
          let '(shown, o) := show_precedents fl strat_key rest in
          (card_of fl strat_key case
           :: Opinion (py_str (title case)) (html_escape t) :: shown, o)
      end
  end.

(** *** The session of [main] *)

Record Session := mkSession {
  results : option (list Result);
  analysis : option string;
  search_method : option string;
  case_input : string
}.

(** The state a first run starts from, and the one [CLEAR] restores. *)
Definition cleared : Session := mkSession None None None "".

Local Open Scope monad_scope.

(** The block under [if analyze and input_text:]. *)
Definition on_analyze (w : World) (llm : Llm) (analyze : bool)
           (input_text strat_key : string) (s : Session) : M Session :=
  if andb analyze (negb (String.eqb input_text "")) then
    let s1 := mkSession (results s) (analysis s) (search_method s) input_text in
    emb <- get_embedding w input_text ;;
    match emb with
    | Some (x :: v) =>
        rm <- cascade w (x :: v) strat_key ;;
        let s2 := mkSession (Some (fst rm)) (analysis s1) (Some (snd rm))
                            (case_input s1) in
        if is_empty (fst rm) then ret s2
        else ret (mkSession (results s2)
                            (Some (generate_strategic_analysis
                                     llm input_text (fst rm) strat_key
                                     (snd rm)))
                            (search_method s2) (case_input s2))
    | _ => ret s1
    end
  else ret s.

(** What the page shows under the input: the results with the memo, the
    "No Relevant Cases Found" panel, or nothing. *)
Inductive Panel :=
| ShowResults (shown : list Result) (memo : option string)
| NoCasesFound
| Blank.

Definition panel (s : Session) : Panel :=
  match results s with
  | Some (r :: l) => ShowResults (r :: l) (analysis s)
  | Some [] => NoCasesFound
  | None => Blank
  end.

End AppView.

(* ------------------------------------------------------------------ *)
(** ** Vocabulary for the citation map and the session *)

Module ViewTerms.

Import AppView.

Definition node_ids (c : Canvas) : list string := map node_id (nodes c).

(** A canvas is well formed when no two nodes share an identifier, the set
    [existing_nodes] holds exactly the identifiers of the nodes, "USER" among
    them, and every edge joins two nodes. *)
Definition well_formed (c : Canvas) : Prop :=
  NoDup (node_ids c)
  /\ (forall i, In i (existing_nodes c) <-> In i (node_ids c))
  /\ In "USER" (node_ids c)
  /\ (forall e, In e (edges c) ->
                In (source e) (node_ids c) /\ In (target e) (node_ids c)).

(** Every identifier of the canvas is "USER", one of [seen], or the
    identifier of a source node. *)
Definition known_from (seen : list string) (c : Canvas) : Prop :=
  forall i, In i (existing_nodes c) ->
            i = "USER" \/ In i seen \/ String.prefix "SRC_" i = true.

(** A session is consistent when results on the page come with a memo and a
    method, and an empty result list with the method "Bronze". *)
Definition consistent (s : Session) : Prop :=
  match results s with
  | Some (_ :: _) => analysis s <> None /\ search_method s <> None
  | Some [] => search_method s = Some "Bronze"
  | None => True
  end.

End ViewTerms.

(* ------------------------------------------------------------------ *)
(** ** benchmark.py: the test set and the evaluation loop *)

Module Harness.

Import Store.
Local Open Scope monad_scope.

(** One record of the test set. *)
Record TestCase := mkTestCase {
  id : string;
  text : option string;
  source_offense : option string;
  ground_truth : list Benchmark.Item
}.

Definition Node_dec : forall x y : Node, {x = y} + {x <> y}.
Proof.
  repeat decide equality.
Defined.

(** [MATCH (c:CASE)-[:CITES]->(cited:CASE)]: one row per relationship. *)
Definition citing_pairs (g : Graph) : list (Node * Node) :=
  flat_map
    (fun ir =>
       match get_node g (start_node (snd ir)),
             get_node g (end_node (snd ir)) with
       | Some c, Some cited =>
           if andb (Label_eqb (label c) CASE) (Label_eqb (label cited) CASE)
           then [(c, cited)] else []
       | _, _ => []
       end)
    (rels_of g CITES).

(** [(c)-[:HAS_TEXT]->()]: some relationship to any node. *)
Definition has_text (g : Graph) (c : Node) : bool :=
  negb (App.is_empty
          (non_null (map (fun ir => get_node g (end_node (snd ir)))
                         (outgoing g HAS_TEXT (elementId c))))).

(** [count{(cited)<-[:CITES]-()}]. *)
Definition cited_by (g : Graph) (cited : Node) : nat :=
  List.length
    (filter (fun ir =>
               andb (String.eqb (end_node (snd ir)) (elementId cited))
                    (Benchmark.is_some (get_node g (start_node (snd ir)))))
            (rels_of g CITES)).

(** The rows after the two [WHERE] clauses. *)
Definition authority_pairs (g : Graph) : list (Node * Node) :=
  filter
    (fun cc =>
       andb (andb (has_text g (fst cc))
                  (andb (Benchmark.is_some (Store.offense (fst cc)))
                        (Benchmark.is_some (Store.offense (snd cc)))))
            (Nat.leb 2 (cited_by g (snd cc))))
    (citing_pairs g).

(** [collect(DISTINCT cited)] in the group of [c]. *)
Definition actual_citations (g : Graph) (c : Node) : list Node :=
  distinct Node_dec
    (map snd (filter (fun cc => if Node_dec (fst cc) c then true else false)
                     (authority_pairs g))).

(** [MATCH (c)-[:HAS_TEXT]->(t:TEXT)]. *)
Definition texts (g : Graph) (c : Node) : list Node :=
  filter (fun t => Label_eqb (label t) TEXT)
         (non_null (map (fun ir => get_node g (end_node (snd ir)))
                        (outgoing g HAS_TEXT (elementId c)))).

Definition test_set_query (g : Graph) : list TestCase :=
  firstn 2000
    (flat_map
       (fun c =>
          let cited := actual_citations g c in
          if Nat.ltb 0 (List.length cited)
          then map (fun t =>
                      mkTestCase
                        (elementId c) (Store.text t) (Store.offense c)
                        (map (fun x => Benchmark.mkItem (elementId x)
                                                        (Store.offense x))
                             cited))
                   (texts g c)
          else [])
       (distinct Node_dec (map fst (authority_pairs g)))).

(** [get_test_set]; [sample] stands for [random.sample]. *)
Definition get_test_set (sample : list TestCase -> nat -> list TestCase)
           (w : World) (sample_size : nat) : M (list TestCase) :=
  data <- session_run w (test_set_query (graph w)) ;;
  if Nat.ltb sample_size (List.length data)
  then ret (sample data sample_size)
  else ret data.

Definition raise {A : Type} : M A := fun st => (Raised, st).

(** The loop of [main], from the two lists of scores it has so far.
    [case['text'][:4000]] raises a [TypeError] when the text is [None];
    [normalize] is the one of [calculate_score]. *)
Fixpoint evaluate (normalize : string -> string) (w : World)
         (test_cases : list TestCase)
         (vector_scores graph_scores : list Q) : M (list Q * list Q) :=
  match test_cases with
  | [] => ret (vector_scores, graph_scores)
  | case :: rest =>
      match text case with
      | None => raise
      | Some t =>
          emb <- Benchmark.get_embedding w (Str.take 4000 t) ;;
          match emb with
          | Some (x :: v) =>
              res_v <- Benchmark.retrieve_cases w (x :: v) (id case) false ;;
              let score_v :=
                Benchmark.calculate_score normalize (ground_truth case) res_v in
              res_g <- Benchmark.retrieve_cases w (x :: v) (id case) true ;;
              let score_g :=
                Benchmark.calculate_score normalize (ground_truth case) res_g in
              evaluate normalize w rest (vector_scores ++ [score_v])
                       (graph_scores ++ [score_g])
          | _ => evaluate normalize w rest vector_scores graph_scores
          end
      end
  end.

(** [main] up to the two lists of scores. *)
Definition main_scores (normalize : string -> string)
           (sample : list TestCase -> nat -> list TestCase)
           (w : World) : M (list Q * list Q) :=
  test_cases <- get_test_set sample w 150 ;;
  evaluate normalize w test_cases [] [].

(** The cases of the loop that get an embedding. *)
Definition embeds (w : World) (case : TestCase) : bool :=
  match text case with
  | Some t =>
      match embed_content w (Str.take 4000 t) with
      | Some (_ :: _) => true
      | _ => false
      end
  | None => false
  end.

(** A score the scoring function can give. *)
Definition is_score (q : Q) : Prop := q = 0%Q \/ q = (1 # 2)%Q \/ q = 1%Q.

(** The number of [CITES] relationships that end in the node [i]. *)
Definition in_degree (g : Graph) (i : string) : nat :=
  List.length
    (filter (fun ir => String.eqb (end_node (snd ir)) i) (rels_of g CITES)).

(** [random.sample(population, k)] draws [k] elements of the population. *)
Definition draws (sample : list TestCase -> nat -> list TestCase) : Prop :=
  forall population k,
    (k <= List.length population)%nat ->
    List.length (sample population k) = k
    /\ incl (sample population k) population.

(** The embedding calls of a log all submit at most [n] characters. *)
Definition submits_at_most (n : nat) (events : list Event) : Prop :=
  Forall (fun e => match e with
                   | EmbedContent content => (String.length content <= n)%nat
                   | _ => True
                   end)
         events.

End Harness.

(* ------------------------------------------------------------------ *)
(** ** A small store for the benchmark *)

Module Samples.

Import Store.

(** [A] and [B] cite [P]; only [A] has a text. *)
Definition A : Node := Fixtures.case "A" None.
Definition P : Node := Fixtures.case "P" None.

Definition cited_twice : Graph :=
  mkGraph [A; Fixtures.B; P; Fixtures.opinion "TA" "the facts of A"]
          [mkRel CITES "A" "P"; mkRel CITES "B" "P"; mkRel HAS_TEXT "A" "TA"].

Definition world : World :=
  Fixtures.world cited_twice [(A, 1%Q); (Fixtures.B, (9 # 10)%Q)].

Definition record : Harness.TestCase :=
  Harness.mkTestCase "A" (Some "the facts of A") (Some "Theft")
                     [Benchmark.mkItem "P" (Some "Theft")].

(** [X] and [B] cite [P], [B] cites [X] too, and [X] has a text: [X] is a
    record of the test set and an index hit cites it. *)
Definition back_citation : Graph :=
  mkGraph [Fixtures.X; Fixtures.B; P; Fixtures.opinion "TX" "the facts of X"]
          [mkRel CITES "X" "P"; mkRel CITES "B" "P"; mkRel CITES "B" "X";
           mkRel HAS_TEXT "X" "TX"].

Definition back_world : World :=
  Fixtures.world back_citation [(Fixtures.X, 1%Q); (Fixtures.B, (9 # 10)%Q)].

(** A sampler that takes the first [k] elements. *)
Definition first_k (population : list Harness.TestCase) (k : nat)
  : list Harness.TestCase :=
  firstn k population.

End Samples.

(* ------------------------------------------------------------------ *)
(** * Properties *)

Open Scope list_scope.

(* ------------------------------------------------------------------ *)
(** ** The tiers never raise *)

Section TierFacts.

Import App.
Variable w : World.

(** What a call of [graph_rag_search] returns and leaves behind. *)
Lemma graph_rag_search_run (emb : Embedding) (strategy : string) (k : nat)
      (f : bool) (st : St) :
  graph_rag_search w emb strategy k f st
  = (Ok (if driver w
         then if store_down w (clock st) then []
              else graph_rag_rows w (filter_clause strategy f) k emb
         else []),
     mkSt (if driver w then S (clock st) else clock st)
          (log st ++ [GraphRagSearch strategy f])).
Proof.
  unfold graph_rag_search, get_driver, bind, emit, try_except, session_run, ret.
  destruct (driver w); cbn; [destruct (store_down w (clock st))|]; reflexivity.
Qed.

Lemma vector_only_search_run (emb : Embedding) (k : nat) (st : St) :
  vector_only_search w emb k st
  = (Ok (if driver w
         then if store_down w (clock st) then []
              else vector_only_rows w emb k
         else []),
     mkSt (if driver w then S (clock st) else clock st)
          (log st ++ [VectorOnlySearch])).
Proof.
  unfold vector_only_search, get_driver, bind, emit, try_except, session_run, ret.
  destruct (driver w); cbn; [destruct (store_down w (clock st))|]; reflexivity.
Qed.

Lemma is_empty_nil {A : Type} (l : list A) : is_empty l = true <-> l = [].
Proof.
  destruct l; simpl; split; congruence.
Qed.

(** The cascade, step by step, in terms of what the tiers return. *)
Lemma cascade_gold (emb : Embedding) (strat : string) (st st1 : St)
      (gold : list Result) :
  graph_rag_search w emb strat 5 true st = (Ok gold, st1) ->
  gold <> [] ->
  cascade w emb strat st = (Ok (gold, "Gold"), st1).
Proof.
  intros Hg Hne. unfold cascade, bind. rewrite Hg.
  destruct gold as [|r gold]; [congruence|]. reflexivity.
Qed.

Lemma cascade_silver (emb : Embedding) (strat : string) (st st1 st2 : St)
      (silver : list Result) :
  graph_rag_search w emb strat 5 true st = (Ok [], st1) ->
  graph_rag_search w emb strat 5 false st1 = (Ok silver, st2) ->
  silver <> [] ->
  cascade w emb strat st = (Ok (silver, "Silver"), st2).
Proof.
  intros Hg Hs Hne. unfold cascade, bind. rewrite Hg. simpl. rewrite Hs.
  destruct silver as [|r silver]; [congruence|]. reflexivity.
Qed.

Lemma cascade_bronze (emb : Embedding) (strat : string) (st st1 st2 st3 : St)
      (bronze : list Result) :
  graph_rag_search w emb strat 5 true st = (Ok [], st1) ->
  graph_rag_search w emb strat 5 false st1 = (Ok [], st2) ->
  vector_only_search w emb 5 st2 = (Ok bronze, st3) ->
  cascade w emb strat st = (Ok (bronze, "Bronze"), st3).
Proof.
  intros Hg Hs Hb. unfold cascade, bind. rewrite Hg. simpl. rewrite Hs.
  simpl. rewrite Hb. reflexivity.
Qed.

End TierFacts.


Lemma graph_rag_search_returns (w : World) (emb : Embedding) (strat : string)
      (k : nat) (f : bool) (st : St) :
  exists l st', App.graph_rag_search w emb strat k f st = (Ok l, st').
Proof.
  rewrite graph_rag_search_run. eauto.
Qed.

Lemma vector_only_search_returns (w : World) (emb : Embedding) (k : nat)
      (st : St) :
  exists l st', App.vector_only_search w emb k st = (Ok l, st').
Proof.
  rewrite vector_only_search_run. eauto.
Qed.

(** The cascade always returns. *)
Lemma cascade_returns (w : World) (emb : Embedding) (strat : string) (st : St) :
  exists rm st', App.cascade w emb strat st = (Ok rm, st').
Proof.
  destruct (graph_rag_search_returns w emb strat 5 true st)
    as ([|r gold] & st1 & Hg).
  - destruct (graph_rag_search_returns w emb strat 5 false st1)
      as ([|r silver] & st2 & Hs).
    + destruct (vector_only_search_returns w emb 5 st2) as (bronze & st3 & Hb).
      do 2 eexists. eapply cascade_bronze; eassumption.
    + do 2 eexists. eapply cascade_silver; try eassumption. discriminate.
  - do 2 eexists. eapply cascade_gold; try eassumption. discriminate.
Qed.

(** C1.  The cascade of [main] runs Gold, then Silver, then Bronze, and stops
    at the first tier whose result is not empty.  When Gold returns at least
    one result the method is "Gold", the results are Gold's and the log holds
    the Gold call alone; when Gold is empty and Silver is not, the method is
    "Silver"; when both are empty Bronze is called and its result, empty or
    not, is the result of the cascade. *)
Theorem cascade_stops_at_first_nonempty_tier
        (w : World) (emb : Embedding) (strat : string) (st : St) :
  exists gold st1,
    App.graph_rag_search w emb strat 5 true st = (Ok gold, st1)
    /\ ((gold <> []
         /\ App.cascade w emb strat st = (Ok (gold, "Gold"), st1)
         /\ log st1 = log st ++ [GraphRagSearch strat true])
        \/
        (gold = []
         /\ exists silver st2,
             App.graph_rag_search w emb strat 5 false st1 = (Ok silver, st2)
             /\ ((silver <> []
                  /\ App.cascade w emb strat st = (Ok (silver, "Silver"), st2)
                  /\ log st2 = log st ++ [GraphRagSearch strat true;
                                          GraphRagSearch strat false])
                 \/
                 (silver = []
                  /\ exists bronze st3,
                      App.vector_only_search w emb 5 st2 = (Ok bronze, st3)
                      /\ App.cascade w emb strat st
                         = (Ok (bronze, "Bronze"), st3)
                      /\ log st3 = log st ++ [GraphRagSearch strat true;
                                              GraphRagSearch strat false;
                                              VectorOnlySearch])))).
Proof.
  destruct (App.graph_rag_search w emb strat 5 true st) as [og st1] eqn:Hg.
  pose proof Hg as Hg'. rewrite graph_rag_search_run in Hg'.
  injection Hg' as Hog Hst1. subst og.
  eexists; exists st1. split; [reflexivity|].
  match type of Hg with _ = (Ok ?l, _) => remember l as gold eqn:Egold end.
  assert (Hlog1 : log st1 = log st ++ [GraphRagSearch strat true])
    by (subst st1; reflexivity).
  clear Egold Hst1.
  destruct gold as [|r gold].
  - right. split; [reflexivity|].
    destruct (App.graph_rag_search w emb strat 5 false st1) as [os st2] eqn:Hs.
    pose proof Hs as Hs'. rewrite graph_rag_search_run in Hs'.
    injection Hs' as Hos Hst2. subst os.
    eexists; exists st2. split; [reflexivity|].
    match type of Hs with _ = (Ok ?l, _) => remember l as silver eqn:Esilver end.
    assert (Hlog2 : log st2 = log st ++ [GraphRagSearch strat true;
                                         GraphRagSearch strat false]).
    { subst st2. simpl. rewrite Hlog1, <- app_assoc. reflexivity. }
    clear Esilver Hst2.
    destruct silver as [|r silver].
    + right. split; [reflexivity|].
      destruct (App.vector_only_search w emb 5 st2) as [ob st3] eqn:Hb.
      pose proof Hb as Hb'. rewrite vector_only_search_run in Hb'.
      injection Hb' as Hob Hst3. subst ob.
      eexists; exists st3. split; [reflexivity|]. split.
      * eapply cascade_bronze; eassumption.
      * subst st3. simpl. rewrite Hlog2, <- app_assoc. reflexivity.
    + left. split; [discriminate|]. split; [|assumption].
      eapply cascade_silver; try eassumption. discriminate.
  - left. split; [discriminate|]. split; [|assumption].
    eapply cascade_gold; try eassumption. discriminate.
Qed.

(** C8.  A failure of the store inside a tier is caught by the tier's own
    function, which then returns the empty list: neither tier function ever
    raises, and each returns [[]] when its round trip fails.  The cascade is
    therefore never aborted, and whenever Gold and Silver both return the
    empty list (by failure or by finding nothing) Bronze is called and gives
    the result. *)
Theorem query_failure_is_an_empty_tier
        (w : World) (emb : Embedding) (strat : string) (st : St) :
  (forall k f st0, exists l st',
      App.graph_rag_search w emb strat k f st0 = (Ok l, st')
      /\ (store_down w (clock st0) = true -> l = []))
  /\ (forall k st0, exists l st',
         App.vector_only_search w emb k st0 = (Ok l, st')
         /\ (store_down w (clock st0) = true -> l = []))
  /\ (exists rm st', App.cascade w emb strat st = (Ok rm, st'))
  /\ (forall st1 st2,
         App.graph_rag_search w emb strat 5 true st = (Ok [], st1) ->
         App.graph_rag_search w emb strat 5 false st1 = (Ok [], st2) ->
         exists bronze st3,
           App.vector_only_search w emb 5 st2 = (Ok bronze, st3)
           /\ App.cascade w emb strat st = (Ok (bronze, "Bronze"), st3)
           /\ In VectorOnlySearch (log st3)).
Proof.
  split; [|split; [|split]].
  - intros k f st0. rewrite graph_rag_search_run. do 2 eexists.
    split; [reflexivity|]. intros Hd. rewrite Hd.
    destruct (driver w); reflexivity.
  - intros k st0. rewrite vector_only_search_run. do 2 eexists.
    split; [reflexivity|]. intros Hd. rewrite Hd.
    destruct (driver w); reflexivity.
  - destruct (cascade_returns w emb strat st)
      as (rm & st' & H). eauto.
  - intros st1 st2 Hg Hs.
    destruct (App.vector_only_search w emb 5 st2) as [ob st3] eqn:Hb.
    pose proof Hb as Hb'. rewrite vector_only_search_run in Hb'.
    injection Hb' as Hob Hst3. subst ob.
    do 2 eexists. split; [reflexivity|]. split.
    + eapply cascade_bronze; eassumption.
    + subst st3. simpl. apply in_or_app. right. left. reflexivity.
Qed.

(** The store is down at every round trip: the cascade still ends, at
    Bronze. *)
Lemma query_failure_is_an_empty_tier_witness :
  exists bronze st3,
    App.cascade (Fixtures.down Fixtures.two_paths [(Fixtures.X, 9 # 10)%Q])
                Fixtures.emb "defense" initial
    = (Ok (bronze, "Bronze"), st3)
    /\ In VectorOnlySearch (log st3).
Proof.
  destruct (query_failure_is_an_empty_tier
              (Fixtures.down Fixtures.two_paths [(Fixtures.X, 9 # 10)%Q])
              Fixtures.emb "defense" initial) as (_ & _ & _ & H).
  destruct (H (mkSt 1 [GraphRagSearch "defense" true])
              (mkSt 2 [GraphRagSearch "defense" true;
                       GraphRagSearch "defense" false])
              eq_refl eq_refl) as (bronze & st3 & _ & Hc & Hin).
  exists bronze, st3. split; assumption.
Defined.

(* ------------------------------------------------------------------ *)
(** ** The confidence of a card *)

Lemma int_nonneg (x : Q) : (0 <= x)%Q -> 0 <= App.int x.
Proof.
  intros H. unfold App.int. apply Z.quot_pos; [|lia].
  unfold Qle in H. simpl in H. lia.
Qed.

(** C5, as worded, fails.  The card shows the integer part of
    [relevance_score * 100], not its rounding: for the score 65/128 =
    0.5078125 and no citation the product is 50.78125 (both are binary64
    numbers, so the product is exact), the code shows 50 and the worded
    formula gives 51. *)
Lemma confidence_truncates_not_rounds :
  App.confidence (fun x => x) (Fixtures.vector_hit (65 # 128)) = 50
  /\ Worded.confidence (fun x => x) (Fixtures.vector_hit (65 # 128)) = 51.
Proof.
  split; vm_compute; reflexivity.
Qed.

(** C5, amended.  The confidence is
    [min(int(relevance_score * 100) + citation_count * 5, 99)] with [int] the
    integer part; for a relevance score in [0, 1] and a citation count that is
    not negative it lies between 0 and 99.  The float product is the exact
    product followed by a rounding [fl] that is monotone and keeps 0. *)
Theorem confidence_is_bounded
        (fl : Q -> Q) (case : App.Result)
        (fl_mono : forall x y, (x <= y)%Q -> (fl x <= fl y)%Q)
        (fl_zero : (fl 0 == 0)%Q)
        (Hscore : (0 <= App.relevance_score case <= 1)%Q)
        (Hcount : 0 <= App.citation_count case) :
  App.confidence fl case
  = Z.min (App.int (fl (App.relevance_score case * 100)%Q)
           + App.citation_count case * 5) 99
  /\ 0 <= App.confidence fl case <= 99.
Proof.
  split; [reflexivity|].
  unfold App.confidence.
  assert (H0 : (0 <= fl (App.relevance_score case * 100))%Q).
  { rewrite <- fl_zero. apply fl_mono.
    apply Qmult_le_0_compat; [tauto|]. discriminate. }
  pose proof (int_nonneg _ H0). lia.
Qed.

Lemma confidence_is_bounded_witness :
  0 <= App.confidence (fun x => x)
                      (App.mkResult "Y" None None None None 2 ["Case X"]
                                    (9 # 10)) <= 99.
Proof.
  apply (confidence_is_bounded
           (fun x => x)
           (App.mkResult "Y" None None None None 2 ["Case X"] (9 # 10))).
  - intros x y H. exact H.
  - reflexivity.
  - split; discriminate.
  - simpl. lia.
Defined.

(* ------------------------------------------------------------------ *)
(** ** Sorting keeps the elements *)

Section OrderBy.

Context {A : Type}.
Variable before : A -> A -> bool.

Lemma insert_sorted_perm (x : A) (l : list A) :
  Permutation (insert_sorted before x l) (x :: l).
Proof.
  induction l as [|y t IH]; simpl.
  - apply Permutation_refl.
  - destruct (before x y).
    + apply Permutation_refl.
    + apply perm_trans with (y :: x :: t).
      * apply perm_skip, IH.
      * apply perm_swap.
Qed.

Lemma order_by_perm (l : list A) : Permutation (order_by before l) l.
Proof.
  induction l as [|x t IH]; simpl.
  - apply perm_nil.
  - apply perm_trans with (x :: order_by before t).
    + apply insert_sorted_perm.
    + apply perm_skip, IH.
Qed.

Lemma order_by_In (x : A) (l : list A) : In x (order_by before l) <-> In x l.
Proof.
  split; apply Permutation_in;
    [apply order_by_perm | apply Permutation_sym, order_by_perm].
Qed.

End OrderBy.

(* ------------------------------------------------------------------ *)
(** ** Bronze *)

Lemma vector_only_rows_fields (w : World) (emb : Embedding) (k : nat)
      (r : App.Result) :
  In r (App.vector_only_rows w emb k) ->
  App.citation_count r = 0 /\ App.found_via r = [].
Proof.
  unfold App.vector_only_rows. rewrite order_by_In, in_flat_map.
  intros (cs & _ & Hr). apply in_map_iff in Hr.
  destruct Hr as (t & <- & _). split; reflexivity.
Qed.

(** C10.  Every result of the Bronze tier has [citation_count = 0] and
    [found_via = []], so its confidence is the smaller of 99 and the integer
    part of [relevance_score * 100]. *)
Theorem bronze_has_no_authority_bonus
        (w : World) (emb : Embedding) (k : nat) (st st' : St)
        (l : list App.Result) (fl : Q -> Q) (r : App.Result)
        (Hrun : App.vector_only_search w emb k st = (Ok l, st'))
        (Hin : In r l) :
  App.citation_count r = 0
  /\ App.found_via r = []
  /\ App.confidence fl r = Z.min 99 (App.int (fl (App.relevance_score r * 100)%Q)).
Proof.
  rewrite vector_only_search_run in Hrun. injection Hrun as Hl _.
  assert (Hrows : In r (App.vector_only_rows w emb k)).
  { destruct (driver w); [destruct (store_down w (clock st))|];
      subst l; try contradiction. exact Hin. }
  destruct (vector_only_rows_fields _ _ _ _ Hrows) as [Hc Hv].
  repeat split; try assumption.
  unfold App.confidence. rewrite Hc. lia.
Qed.

Lemma bronze_has_no_authority_bonus_witness :
  let w := Fixtures.world Fixtures.two_paths [(Fixtures.X, 9 # 10)%Q] in
  let r := App.mkResult "X" (Some "Case X") (Some "Theft") None None 0 []
                        (9 # 10) in
  App.vector_only_search w Fixtures.emb 5 initial
  = (Ok [r], mkSt 1 [VectorOnlySearch])
  /\ App.confidence (fun x => x) r = 90.
Proof.
  intros w r. split; [reflexivity|].
  destruct (bronze_has_no_authority_bonus
              w Fixtures.emb 5 initial (mkSt 1 [VectorOnlySearch]) [r]
              (fun x => x) r eq_refl (or_introl eq_refl)) as (_ & _ & H).
  rewrite H. reflexivity.
Defined.

(* ------------------------------------------------------------------ *)
(** ** What reaches the embedding service *)

Lemma take_length (n : nat) (s : string) : (String.length (Str.take n s) <= n)%nat.
Proof.
  revert s. induction n as [|n IH]; intros s; simpl.
  - lia.
  - destruct s as [|c t]; simpl; [lia|]. specialize (IH t). lia.
Qed.

(** The benchmark submits at most 9000 characters. *)
Lemma benchmark_get_embedding_truncates (w : World) (text : string) (st : St) :
  exists content,
    log (snd (Benchmark.get_embedding w text st))
    = log st ++ [EmbedContent content]
    /\ (String.length content <= 9000)%nat.
Proof.
  exists (Str.take 9000 text). split; [|apply take_length].
  unfold Benchmark.get_embedding, try_except, bind, genai_embed_content, ret.
  destruct (embed_content w (Str.take 9000 text)); reflexivity.
Qed.

(** The interactive path submits the text as it is. *)
Lemma app_get_embedding_submits_all (w : World) (text : string) (st : St) :
  log (snd (App.get_embedding w text st)) = log st ++ [EmbedContent text].
Proof.
  unfold App.get_embedding, try_except, bind, genai_embed_content, ret.
  destruct (embed_content w text); reflexivity.
Qed.

(** C9, at a text of 9001 characters: [benchmark.py] submits its first 9000
    characters, [app.py] submits all 9001. *)
Theorem app_get_embedding_submits_oversized_text (w : World) :
  let text := Str.replicate 9001 "a" in
  log (snd (Benchmark.get_embedding w text initial))
  = [EmbedContent (Str.replicate 9000 "a")]
  /\ log (snd (App.get_embedding w text initial)) = [EmbedContent text]
  /\ String.length text = 9001%nat.
Proof.
  intros text. split; [|split].
  - unfold Benchmark.get_embedding, try_except, bind, genai_embed_content, ret.
    assert (E : Str.take 9000 text = Str.replicate 9000 "a")
      by (vm_compute; reflexivity).
    rewrite E.
    destruct (embed_content w (Str.replicate 9000 "a")); reflexivity.
  - apply app_get_embedding_submits_all.
  - vm_compute. reflexivity.
Qed.

(* ------------------------------------------------------------------ *)
(** ** The scoring function of the benchmark *)

Section Scoring.

Import Benchmark Terms.

Lemma memb_true_iff {A : Type} (dec : forall x y : A, {x = y} + {x <> y})
      (x : A) (l : list A) :
  memb dec x l = true <-> In x l.
Proof.
  unfold memb. destruct (in_dec dec x l); split; congruence.
Qed.

Lemma memb_false_iff {A : Type} (dec : forall x y : A, {x = y} + {x <> y})
      (x : A) (l : list A) :
  memb dec x l = false <-> ~ In x l.
Proof.
  unfold memb. destruct (in_dec dec x l); split; congruence.
Qed.

Variable normalize : string -> string.

Lemma true_offenses_In (ground_truth_list : list Item) (o : string) :
  In o (true_offenses normalize ground_truth_list) <->
  exists item s, In item ground_truth_list /\ offense item = Some s
                 /\ s <> "" /\ o = normalize s.
Proof.
  unfold true_offenses. rewrite in_flat_map. split.
  - intros (item & Hin & Ho).
    destruct (offense item) as [[|c s]|] eqn:E; simpl in Ho; try contradiction.
    destruct Ho as [<-|[]]. exists item, (String c s). repeat split; try assumption.
    discriminate.
  - intros (item & s & Hin & E & Hs & ->). exists item. split; [assumption|].
    rewrite E. destruct s as [|c s]; [congruence|]. simpl. left. reflexivity.
Qed.

(** The loop, for any value [max_points] has on entry. *)
Lemma scan_cases (g : list Item) (retrieved_list : list Item) (m : Q) :
  (Exists (hard g) retrieved_list ->
   scan normalize (true_ids g) (true_offenses normalize g) retrieved_list m = 1%Q)
  /\ (~ Exists (hard g) retrieved_list ->
      Exists (soft normalize g) retrieved_list ->
      scan normalize (true_ids g) (true_offenses normalize g) retrieved_list m = (1 # 2)%Q)
  /\ (~ Exists (hard g) retrieved_list ->
      ~ Exists (soft normalize g) retrieved_list ->
      scan normalize (true_ids g) (true_offenses normalize g) retrieved_list m = m).
Proof.
  revert m. induction retrieved_list as [|found rest IH]; intros m; simpl.
  - repeat split.
    + intros H. inversion H.
    + intros _ H. inversion H.
  - destruct (memb string_dec (id found) (true_ids g)) eqn:Eh.
    + apply memb_true_iff in Eh. repeat split; try reflexivity.
      * intros Hn. exfalso. apply Hn. left. exact Eh.
      * intros Hn. exfalso. apply Hn. left. exact Eh.
    + apply memb_false_iff in Eh.
      assert (Hh : Exists (hard g) (found :: rest) <-> Exists (hard g) rest).
      { rewrite Exists_cons. unfold hard at 1. tauto. }
      destruct (memb string_dec (found_offense normalize found) (true_offenses normalize g)) eqn:Es.
      * apply memb_true_iff in Es.
        destruct (IH (1 # 2)%Q) as (H1 & H2 & H3).
        repeat split.
        -- intros H. apply H1, Hh, H.
        -- intros Hn _.
           assert (Hn' : ~ Exists (hard g) rest) by (rewrite <- Hh; exact Hn).
           destruct (Exists_dec (soft normalize g) rest) as [Hs|Hs].
           { intros x. apply in_dec, string_dec. }
           ++ apply H2; assumption.
           ++ apply H3; assumption.
        -- intros _ Hn. exfalso. apply Hn. left. exact Es.
      * apply memb_false_iff in Es.
        assert (Hs : Exists (soft normalize g) (found :: rest) <-> Exists (soft normalize g) rest).
        { rewrite Exists_cons. unfold soft at 1. tauto. }
        destruct (IH m) as (H1 & H2 & H3).
        repeat split.
        -- intros H. apply H1, Hh, H.
        -- intros Hn Hso. apply H2; [rewrite <- Hh | rewrite <- Hs]; assumption.
        -- intros Hn Hso. apply H3; [rewrite <- Hh | rewrite <- Hs]; assumption.
Qed.

End Scoring.

(** C4, as worded, fails.  A ground-truth offense that is the empty string is
    left out of the set of true offenses, so a retrieved offense that trims
    to the empty string does not match it: the two normalized offenses are
    equal, no id matches, and the score is 0.0, not 0.5. *)
Lemma empty_offense_is_no_soft_match :
  ~ Worded.score_cases Benchmark.ascii_normalize
                       [Benchmark.mkItem "a" (Some "")]
                       [Benchmark.mkItem "b" (Some " ")].
Proof.
  intros H.
  destruct H as (_ & H & _); [discriminate|].
  assert (E : Benchmark.calculate_score Benchmark.ascii_normalize
                                        [Benchmark.mkItem "a" (Some "")]
                                        [Benchmark.mkItem "b" (Some " ")]
              = 0%Q) by (vm_compute; reflexivity).
  rewrite E in H. discriminate H.
  - intros (f & g & [<-|[]] & [<-|[]] & Hid). discriminate Hid.
  - exists (Benchmark.mkItem "b" (Some " ")), (Benchmark.mkItem "a" (Some "")),
      " ", "".
    repeat split; try (left; reflexivity).
Qed.

(** C4, amended.  The score is 1.0 as soon as one retrieved id is a
    ground-truth id, whatever was seen before it; otherwise it is 0.5 when
    the normalized offense of a retrieved item (the empty string when the
    item has no offense) is the normalized offense of a ground-truth item
    whose offense is present and not empty, however many such items there
    are; otherwise it is 0.0.  [normalize] is the trimming and lowercasing of
    Python, whatever it does to a text: the statement holds for every such
    function. *)
Theorem calculate_score_cases
        (normalize : string -> string)
        (ground_truth_list retrieved_list : list Benchmark.Item) :
  let hard_match :=
    exists found item, In found retrieved_list /\ In item ground_truth_list
                       /\ Benchmark.id found = Benchmark.id item in
  let soft_match :=
    exists found item s,
      In found retrieved_list /\ In item ground_truth_list
      /\ Benchmark.offense item = Some s /\ s <> ""
      /\ Benchmark.found_offense normalize found = normalize s in
  (hard_match ->
   Benchmark.calculate_score normalize ground_truth_list retrieved_list = 1%Q)
  /\ (~ hard_match -> soft_match ->
      Benchmark.calculate_score normalize ground_truth_list retrieved_list = (1 # 2)%Q)
  /\ (~ hard_match -> ~ soft_match ->
      Benchmark.calculate_score normalize ground_truth_list retrieved_list = 0%Q).
Proof.
  intros hard_match soft_match.
  assert (Hh : hard_match <-> Exists (Terms.hard ground_truth_list) retrieved_list).
  { unfold hard_match. rewrite Exists_exists. unfold Terms.hard, Benchmark.true_ids.
    split.
    - intros (f & g & Hf & Hg & E). exists f. split; [assumption|].
      rewrite E. apply in_map, Hg.
    - intros (f & Hf & Hin). apply in_map_iff in Hin.
      destruct Hin as (g & E & Hg). exists f, g. auto. }
  assert (Hs : soft_match <-> Exists (Terms.soft normalize ground_truth_list) retrieved_list).
  { unfold soft_match. rewrite Exists_exists. unfold Terms.soft. split.
    - intros (f & g & s & Hf & Hg & E & Hne & Ho). exists f.
      split; [assumption|]. apply true_offenses_In. exists g, s. auto.
    - intros (f & Hf & Hin). apply true_offenses_In in Hin.
      destruct Hin as (g & s & Hg & E & Hne & Ho). exists f, g, s. auto. }
  unfold Benchmark.calculate_score.
  destruct (scan_cases normalize ground_truth_list retrieved_list 0%Q) as (H1 & H2 & H3).
  rewrite Hh, Hs. auto.
Qed.

(** A soft match seen first, then the exact id: the score is 1.0. *)
Lemma calculate_score_cases_witness :
  Benchmark.calculate_score
    Benchmark.ascii_normalize
    [Benchmark.mkItem "a" (Some "Theft")]
    [Benchmark.mkItem "b" (Some " THEFT "); Benchmark.mkItem "a" None]
  = 1%Q.
Proof.
  apply (calculate_score_cases
           Benchmark.ascii_normalize
           [Benchmark.mkItem "a" (Some "Theft")]
           [Benchmark.mkItem "b" (Some " THEFT "); Benchmark.mkItem "a" None]).
  exists (Benchmark.mkItem "a" None), (Benchmark.mkItem "a" (Some "Theft")).
  simpl. auto.
Defined.

(* ------------------------------------------------------------------ *)
(** ** Lists and the graph *)

Section ListFacts.

Context {A : Type}.
Variable dec : forall x y : A, {x = y} + {x <> y}.

Lemma distinct_In (x : A) (l : list A) : In x (distinct dec l) <-> In x l.
Proof.
  unfold distinct. rewrite <- in_rev, nodup_In, <- in_rev. reflexivity.
Qed.

Lemma distinct_NoDup (l : list A) : NoDup (distinct dec l).
Proof.
  unfold distinct. apply NoDup_rev, NoDup_nodup.
Qed.

Lemma firstn_In (n : nat) (x : A) (l : list A) : In x (firstn n l) -> In x l.
Proof.
  intros H. rewrite <- (firstn_skipn n l). apply in_or_app. left. exact H.
Qed.

Lemma firstn_NoDup (n : nat) (l : list A) : NoDup l -> NoDup (firstn n l).
Proof.
  intros H. rewrite <- (firstn_skipn n l) in H.
  apply NoDup_app_remove_r in H. exact H.
Qed.

Lemma non_null_In (x : A) (l : list (option A)) :
  In x (non_null l) <-> In (Some x) l.
Proof.
  induction l as [|[y|] t IH]; simpl.
  - reflexivity.
  - rewrite IH. split; intros [H|H]; auto; left; congruence.
  - rewrite IH. split; [auto|]. intros [H|H]; [discriminate|assumption].
Qed.

End ListFacts.

Section GraphFacts.

Import Store.
Variable g : Graph.

Lemma get_node_id (i : string) (n : Node) :
  get_node g i = Some n -> elementId n = i /\ In n (nodes g).
Proof.
  unfold get_node. intros H. apply find_some in H.
  destruct H as [Hin He]. apply String.eqb_eq in He. auto.
Qed.

(** A node the traversal reaches is the node the store has under its
    identifier, and its identifier ends one of the paths. *)
Lemma reach_1_2_In (a : string) (l : Label) (p : Node) :
  In p (reach_1_2 g a l) <->
  In (elementId p) (cites_1_2 g a) /\ get_node g (elementId p) = Some p
  /\ label p = l.
Proof.
  unfold reach_1_2. rewrite filter_In, non_null_In, in_map_iff. split.
  - intros ((i & Hi & Hin) & Hl).
    destruct (get_node_id _ _ Hi) as [E _]. subst i.
    repeat split; try assumption.
    destruct (label p), l; simpl in Hl; congruence.
  - intros (Hin & Hget & <-). split.
    + exists (elementId p). auto.
    + destruct (label p); reflexivity.
Qed.

End GraphFacts.

(* ------------------------------------------------------------------ *)
(** ** The retrieval of the benchmark *)

Section Retrieval.

Import Store Benchmark.
Variable w : World.

Lemma retrieve_cases_run (emb : Embedding) (original_id : string)
      (use_graph : bool) (st : St) :
  retrieve_cases w emb original_id use_graph st
  = (if store_down w (clock st) then Raised
     else Ok (map (fun r => mkItem (fst (fst r)) (snd (fst r)))
                  (if use_graph then graph_query w emb original_id
                   else vector_query w emb original_id)),
     mkSt (S (clock st)) (log st ++ [RetrieveCases original_id use_graph])).
Proof.
  unfold retrieve_cases, bind, emit, session_run, ret. cbn.
  destruct (store_down w (clock st)); reflexivity.
Qed.

Lemma differs_true (original_id : string) (n : Node) :
  differs original_id n = true <-> elementId n <> original_id.
Proof.
  unfold differs. rewrite negb_true_iff. apply String.eqb_neq.
Qed.

Lemma vector_query_In (emb : Embedding) (original_id : string) (r : Scored) :
  In r (vector_query w emb original_id) ->
  fst (fst r) <> original_id
  /\ exists n s, In (n, s) (queryNodes w NEO4J_VECTOR_INDEX 10 emb)
                 /\ elementId n = fst (fst r).
Proof.
  unfold vector_query. intros H. apply firstn_In in H.
  rewrite order_by_In, in_map_iff in H.
  destruct H as ([n s] & <- & H). apply filter_In in H.
  destruct H as [Hin Hf]. apply andb_true_iff in Hf. destruct Hf as [Hd _].
  simpl in *. apply differs_true in Hd. split; [assumption|].
  exists n, s. auto.
Qed.

Lemma graph_query_In (emb : Embedding) (original_id : string) (r : Scored) :
  In r (graph_query w emb original_id) ->
  exists a s, In (a, s) (queryNodes w NEO4J_VECTOR_INDEX 50 emb)
              /\ elementId a <> original_id
              /\ In (fst (fst r)) (cites_1_2 (graph w) (elementId a)).
Proof.
  unfold graph_query. intros H. apply firstn_In in H.
  rewrite order_by_In, in_map_iff in H.
  destruct H as (k & <- & H). rewrite distinct_In, in_map_iff in H.
  destruct H as ([p s] & <- & H). unfold graph_match in H.
  rewrite in_flat_map in H. destruct H as ([a sa] & Ha & H).
  apply in_map_iff in H. destruct H as (p' & E & H).
  injection E as -> ->. apply filter_In in H. destruct H as [H _].
  apply reach_1_2_In in H. destruct H as (H & _).
  unfold anchors in Ha. apply filter_In in Ha. destruct Ha as [Ha Hd].
  apply differs_true in Hd. simpl in *. exists a, s. auto.
Qed.

End Retrieval.

(** What each mode keeps out.  The baseline retrieval returns no item whose
    id is the source's: each returned id is an index hit other than the
    source.  The graph retrieval keeps the source out of the anchors only:
    each returned id ends a path of one or two citations that starts at an
    index hit other than the source. *)
Lemma retrieve_cases_excludes_source_hit
        (w : World) (emb : Embedding) (original_id : string)
        (use_graph : bool) (st st' : St) (l : list Benchmark.Item)
        (r : Benchmark.Item)
        (Hrun : Benchmark.retrieve_cases w emb original_id use_graph st
                = (Ok l, st'))
        (Hin : In r l) :
  if use_graph
  then exists a s,
         In (a, s) (queryNodes w Benchmark.NEO4J_VECTOR_INDEX 50 emb)
         /\ Store.elementId a <> original_id
         /\ In (Benchmark.id r) (Store.cites_1_2 (graph w) (Store.elementId a))
  else Benchmark.id r <> original_id
       /\ exists n s,
           In (n, s) (queryNodes w Benchmark.NEO4J_VECTOR_INDEX 10 emb)
           /\ Store.elementId n = Benchmark.id r.
Proof.
  rewrite retrieve_cases_run in Hrun.
  destruct (store_down w (clock st)); [discriminate|].
  injection Hrun as Hl _. subst l. apply in_map_iff in Hin.
  destruct Hin as (x & <- & Hin). simpl.
  destruct use_graph.
  - apply graph_query_In with (original_id := original_id). exact Hin.
  - apply vector_query_In. exact Hin.
Qed.

(** C6, at a sampled case.  In the store [Samples.back_citation] the case
    [X] is a record of the test set, with the ground truth [P], and the
    index hit [B] cites [X].  The baseline retrieval for [X] returns [B]
    alone; the graph retrieval for [X] returns [P] and [X] itself. *)
Theorem graph_retrieval_returns_the_sampled_source :
  fst (Harness.get_test_set Samples.first_k Samples.back_world 150 initial)
  = Ok [Harness.mkTestCase "X" (Some "the facts of X") (Some "Theft")
                           [Benchmark.mkItem "P" (Some "Theft")]]
  /\ fst (Benchmark.retrieve_cases Samples.back_world Fixtures.emb "X" false
                                   initial)
     = Ok [Benchmark.mkItem "B" (Some "Theft")]
  /\ fst (Benchmark.retrieve_cases Samples.back_world Fixtures.emb "X" true
                                   initial)
     = Ok [Benchmark.mkItem "P" (Some "Theft");
           Benchmark.mkItem "X" (Some "Theft")].
Proof.
  repeat split; vm_compute; reflexivity.
Qed.


(* ------------------------------------------------------------------ *)
(** ** Counting through [flat_map] and [filter] *)

Section Counting.

Context {A B : Type}.








Lemma NoDup_map_in_inj (f : A -> B) (l : list A) :
  (forall x y, In x l -> In y l -> f x = f y -> x = y) ->
  NoDup l -> NoDup (map f l).
Proof.
  intros Hinj Hnd. induction Hnd as [|x t Hx Hnd IH]; simpl.
  - constructor.
  - constructor.
    + intros Hin. apply in_map_iff in Hin. destruct Hin as (y & E & Hy).
      apply Hx. rewrite (Hinj x y); auto; [left; reflexivity | right; exact Hy].
    + apply IH. intros a b Ha Hb. apply Hinj; right; assumption.
Qed.

End Counting.


(** A list whose distinct values are at most one holds one value. *)
Lemma distinct_single {A : Type} (dec : forall x y : A, {x = y} + {x <> y})
      (l : list A) (x y : A) :
  (List.length (distinct dec l) <= 1)%nat -> In x l -> In y l -> x = y.
Proof.
  intros Hlen Hx Hy.
  apply (distinct_In dec) in Hx. apply (distinct_In dec) in Hy.
  destruct (distinct dec l) as [|a [|b t]]; simpl in *.
  - contradiction.
  - destruct Hx as [<-|[]], Hy as [<-|[]]. reflexivity.
  - lia.
Qed.

(* ------------------------------------------------------------------ *)
(** ** The rows of the graph query and their groups *)

Section GraphRows.

Import Store App.
Variable w : World.
Variable fc : FilterClause.
Variable top_k : nat.
Variable emb : Embedding.

Let g := graph w.
Let hits := queryNodes w NEO4J_VECTOR_INDEX top_k emb.
Let rows := match_rows w fc top_k emb.

Lemma precedents_of_In (a p : Node) :
  In p (precedents_of g fc a) -> get_node g (elementId p) = Some p.
Proof.
  unfold precedents_of. intros H. apply filter_In in H.
  destruct H as [H _]. apply reach_1_2_In in H. tauto.
Qed.

Lemma match_rows_In (r : Row) :
  In r rows <->
  In (anchorCase r, score r) hits
  /\ In (precedent r) (precedents_of g fc (anchorCase r))
  /\ In (precedentText r) (optional_text g (elementId (precedent r))).
Proof.
  unfold rows, match_rows. rewrite in_flat_map. split.
  - intros ([a s] & Ha & H). apply in_flat_map in H.
    destruct H as (p & Hp & H). apply in_map_iff in H.
    destruct H as (t & <- & Ht). simpl in *. auto.
  - intros (Ha & Hp & Ht). exists (anchorCase r, score r). split; [exact Ha|].
    apply in_flat_map. exists (precedent r). split; [exact Hp|].
    apply in_map_iff. exists (precedentText r). split; [|exact Ht].
    destruct r; reflexivity.
Qed.

Lemma row_precedent (r : Row) :
  In r rows -> get_node g (elementId (precedent r)) = Some (precedent r).
Proof.
  intros H. apply match_rows_In in H. destruct H as (_ & Hp & _).
  eapply precedents_of_In, Hp.
Qed.

(** The key of a row of the store is its precedent's identifier and its
    text: the rest of the key follows from the identifier. *)
Lemma key_of_eq (p : Node) (t : option Node) (r0 : Row) (a : Node) (s : Q) :
  get_node g (elementId p) = Some p ->
  In r0 rows ->
  key_of (mkRow a s p t) = key_of r0 <->
  elementId p = elementId (precedent r0)
  /\ text_of t = text_of (precedentText r0).
Proof.
  intros Hp Hr0. apply row_precedent in Hr0. unfold key_of; simpl. split.
  - intros E. injection E as E1 _ _ _ E5. auto.
  - intros [E1 E5]. rewrite E1 in Hp. rewrite Hp in Hr0.
    injection Hr0 as <-. rewrite E5. reflexivity.
Qed.






(** The scores found in a group are the scores of the anchors that reach
    its precedent. *)
Lemma group_scores (r0 : Row) (s : Q) :
  In r0 rows ->
  In s (map score (group (key_of r0) rows)) <->
  In s (map snd (Worded.reaching w fc top_k emb (elementId (precedent r0)))).
Proof.
  intros Hr0. unfold Worded.reaching. fold g hits.
  rewrite !in_map_iff. split.
  - intros (r & <- & Hr). unfold group in Hr. apply filter_In in Hr.
    destruct Hr as [Hr K].
    destruct (Key_dec (key_of r) (key_of r0)) as [E|]; [|discriminate].
    pose proof (row_precedent r Hr) as Hp.
    destruct r as [a sa p t]; simpl in *.
    apply key_of_eq in E; auto. destruct E as [E _].
    apply match_rows_In in Hr. simpl in Hr. destruct Hr as (Ha & Hpa & _).
    exists (a, sa). split; [reflexivity|]. apply filter_In.
    split; [exact Ha|]. simpl. apply existsb_exists. exists p.
    split; [exact Hpa|]. apply String.eqb_eq, E.
  - intros ([a sa] & <- & Ha). apply filter_In in Ha.
    destruct Ha as [Ha Hex]. simpl in *. apply existsb_exists in Hex.
    destruct Hex as (p & Hp & E). apply String.eqb_eq in E.
    pose proof Hr0 as Hr0'. apply match_rows_In in Hr0'.
    destruct Hr0' as (_ & _ & Ht0). rewrite <- E in Ht0.
    exists (mkRow a sa p (precedentText r0)). split; [reflexivity|].
    unfold group. apply filter_In. split.
    + apply match_rows_In. simpl. auto.
    + destruct (Key_dec (key_of (mkRow a sa p (precedentText r0))) (key_of r0))
        as [|K]; [reflexivity|].
      exfalso. apply K. apply key_of_eq; auto.
      eapply precedents_of_In, Hp.
Qed.

Lemma group_nonempty (r0 : Row) :
  In r0 rows -> In r0 (group (key_of r0) rows).
Proof.
  intros H. unfold group. apply filter_In. split; [exact H|].
  destruct (Key_dec (key_of r0) (key_of r0)); congruence.
Qed.

(** Every returned result is the aggregate of the group of some row. *)
Lemma graph_rag_rows_In (r : Result) :
  In r (graph_rag_rows w fc top_k emb) ->
  exists r0, In r0 rows /\ r = aggregate rows (key_of r0).
Proof.
  unfold graph_rag_rows. fold rows. intros H. apply firstn_In in H.
  rewrite order_by_In, in_map_iff in H. destruct H as (k & <- & H).
  rewrite distinct_In, in_map_iff in H. destruct H as (r0 & <- & H).
  exists r0. auto.
Qed.

End GraphRows.

(* ------------------------------------------------------------------ *)
(** ** Maximum and order *)

Lemma Qmax_cases (x y : Q) : Qmax x y = x \/ Qmax x y = y.
Proof.
  unfold Qmax, GenericMinMax.gmax. destruct (x ?= y)%Q; auto.
Qed.

Lemma fold_Qmax (t : list Q) (s : Q) :
  In (fold_left Qmax t s) (s :: t)
  /\ forall x, In x (s :: t) -> (x <= fold_left Qmax t s)%Q.
Proof.
  revert s. induction t as [|y t IH]; intros s; simpl.
  - split; [auto|]. intros x [<-|[]]. apply Qle_refl.
  - destruct (IH (Qmax s y)) as [Hin Hle]. split.
    + destruct Hin as [E|Hin]; [|auto].
      rewrite <- E. destruct (Qmax_cases s y) as [->| ->]; auto.
    + intros x [<-|[<-|Hx]].
      * eapply Qle_trans; [apply Q.le_max_l | apply Hle; left; reflexivity].
      * eapply Qle_trans; [apply Q.le_max_r | apply Hle; left; reflexivity].
      * apply Hle. right. exact Hx.
Qed.

Lemma max_score_is_max (l : list Q) :
  l <> [] ->
  In (App.max_score l) l /\ forall x, In x l -> (x <= App.max_score l)%Q.
Proof.
  destruct l as [|s t]; [congruence|]. intros _. apply fold_Qmax.
Qed.

Section Sorting.

Context {A : Type}.
Variable before : A -> A -> bool.
Hypothesis before_total : forall x y, before x y = false -> before y x = true.
Hypothesis before_trans :
  forall x y z, before x y = true -> before y z = true -> before x z = true.

Let R (x y : A) : Prop := before x y = true.

Lemma insert_sorted_sorted (x : A) (l : list A) :
  StronglySorted R l -> StronglySorted R (insert_sorted before x l).
Proof.
  induction l as [|y t IH]; intros Hs; simpl.
  - constructor; constructor.
  - inversion Hs as [|? ? Ht Hy]; subst.
    destruct (before x y) eqn:E.
    + constructor; [exact Hs|]. constructor; [exact E|].
      rewrite Forall_forall in *. intros z Hz.
      apply before_trans with y; [exact E | apply Hy, Hz].
    + constructor; [apply IH, Ht|].
      rewrite Forall_forall in *. intros z Hz.
      apply (Permutation_in _ (insert_sorted_perm before x t)) in Hz.
      destruct Hz as [<-|Hz]; [apply before_total, E | apply Hy, Hz].
Qed.

Lemma order_by_sorted (l : list A) : StronglySorted R (order_by before l).
Proof.
  induction l as [|x t IH]; simpl.
  - constructor.
  - apply insert_sorted_sorted, IH.
Qed.

End Sorting.

Lemma firstn_sorted {A : Type} (R : A -> A -> Prop) (n : nat) (l : list A) :
  StronglySorted R l -> StronglySorted R (firstn n l).
Proof.
  revert l. induction n as [|n IH]; intros l Hs; simpl.
  - constructor.
  - destruct l as [|x t]; [constructor|].
    inversion Hs as [|? ? Ht Hx]; subst. constructor; [apply IH, Ht|].
    rewrite Forall_forall in *. intros z Hz. apply Hx.
    eapply firstn_In, Hz.
Qed.

Lemma sorted_weaken {A : Type} (R R' : A -> A -> Prop) (l : list A) :
  (forall x y, R x y -> R' x y) -> StronglySorted R l -> StronglySorted R' l.
Proof.
  intros Himp Hs. induction Hs as [|x t Ht IH Hx]; constructor.
  - exact IH.
  - rewrite Forall_forall in *. intros z Hz. apply Himp, Hx, Hz.
Qed.

Lemma ranks_before_ranked (a b : App.Result) :
  App.ranks_before a b = true <-> Terms.ranked a b.
Proof.
  unfold App.ranks_before, Terms.ranked.
  rewrite orb_true_iff, andb_true_iff, Z.ltb_lt, Z.eqb_eq, Qle_bool_iff.
  reflexivity.
Qed.

Lemma ranks_before_total (a b : App.Result) :
  App.ranks_before a b = false -> App.ranks_before b a = true.
Proof.
  intros H. apply ranks_before_ranked.
  assert (N : ~ Terms.ranked a b).
  { rewrite <- ranks_before_ranked. congruence. }
  unfold Terms.ranked in *.
  destruct (Z.lt_trichotomy (App.citation_count a) (App.citation_count b))
    as [L|[E|G]].
  - left. exact L.
  - right. split; [congruence|].
    destruct (Qlt_le_dec (App.relevance_score a) (App.relevance_score b))
      as [Hlt|Hle].
    + apply Qlt_le_weak, Hlt.
    + exfalso. apply N. right. auto.
  - exfalso. apply N. left. exact G.
Qed.

Lemma ranks_before_trans (a b c : App.Result) :
  App.ranks_before a b = true -> App.ranks_before b c = true ->
  App.ranks_before a c = true.
Proof.
  rewrite !ranks_before_ranked. unfold Terms.ranked.
  intros [L1|[E1 Q1]] [L2|[E2 Q2]].
  - left. lia.
  - left. lia.
  - left. lia.
  - right. split; [congruence|]. eapply Qle_trans; eassumption.
Qed.

Lemma graph_rag_rows_sorted (w : World) (fc : App.FilterClause) (k : nat)
      (emb : Embedding) :
  StronglySorted Terms.ranked (App.graph_rag_rows w fc k emb)
  /\ (List.length (App.graph_rag_rows w fc k emb) <= 5)%nat.
Proof.
  unfold App.graph_rag_rows. split.
  - apply firstn_sorted.
    eapply sorted_weaken;
      [|apply (order_by_sorted App.ranks_before ranks_before_total
                               ranks_before_trans)].
    intros x y. apply ranks_before_ranked.
  - apply firstn_le_length.
Qed.

(* ------------------------------------------------------------------ *)
(** ** The results of the graph search *)

Section GraphResults.

Import Store App.
Variable w : World.
Variable fc : FilterClause.
Variable top_k : nat.
Variable emb : Embedding.

Lemma aggregate_fields (r0 : Row) :
  let r := aggregate (match_rows w fc top_k emb) (key_of r0) in
  id r = elementId (precedent r0)
  /\ full_text r = text_of (precedentText r0)
  /\ citation_count r
     = Z.of_nat (List.length (group (key_of r0) (match_rows w fc top_k emb)))
  /\ relevance_score r
     = max_score (map score (group (key_of r0) (match_rows w fc top_k emb))).
Proof.
  repeat split.
Qed.



Lemma result_relevance (r : Result) :
  In r (graph_rag_rows w fc top_k emb) ->
  In (relevance_score r)
     (map snd (Worded.reaching w fc top_k emb (id r)))
  /\ forall s, In s (map snd (Worded.reaching w fc top_k emb (id r))) ->
               (s <= relevance_score r)%Q.
Proof.
  intros H. apply graph_rag_rows_In in H. destruct H as (r0 & Hr0 & ->).
  destruct (aggregate_fields r0) as (-> & _ & _ & ->).
  destruct (max_score_is_max
              (map score (group (key_of r0) (match_rows w fc top_k emb))))
    as [Hin Hle].
  { pose proof (group_nonempty w fc top_k emb r0 Hr0) as Hne.
    destruct (group (key_of r0) (match_rows w fc top_k emb));
      [contradiction|discriminate]. }
  split.
  - apply group_scores; assumption.
  - intros s Hs. apply Hle. apply group_scores in Hs; assumption.
Qed.

(** The results are as distinct as the projection [proj] tells their keys
    apart. *)
Lemma graph_rag_rows_NoDup {C : Type} (proj : Result -> C) :
  (forall r1 r2,
      In r1 (match_rows w fc top_k emb) -> In r2 (match_rows w fc top_k emb) ->
      proj (aggregate (match_rows w fc top_k emb) (key_of r1))
      = proj (aggregate (match_rows w fc top_k emb) (key_of r2)) ->
      key_of r1 = key_of r2) ->
  NoDup (map proj (graph_rag_rows w fc top_k emb)).
Proof.
  intros Hinj. unfold graph_rag_rows. rewrite <- firstn_map.
  apply firstn_NoDup.
  eapply Permutation_NoDup.
  { apply Permutation_map, Permutation_sym, order_by_perm. }
  rewrite map_map. apply NoDup_map_in_inj; [|apply distinct_NoDup].
  intros k1 k2 H1 H2 E.
  rewrite distinct_In, in_map_iff in H1, H2.
  destruct H1 as (r1 & <- & H1), H2 as (r2 & <- & H2). auto.
Qed.

Lemma same_key (r1 r2 : Row) :
  In r1 (match_rows w fc top_k emb) -> In r2 (match_rows w fc top_k emb) ->
  elementId (precedent r1) = elementId (precedent r2) ->
  text_of (precedentText r1) = text_of (precedentText r2) ->
  key_of r1 = key_of r2.
Proof.
  intros H1 H2 Ei Et.
  pose proof (row_precedent w fc top_k emb r1 H1) as Hp.
  destruct r1 as [a s p t]. simpl in *.
  apply (key_of_eq w fc top_k emb); auto.
Qed.

Lemma graph_rag_rows_NoDup_pairs :
  NoDup (map (fun r => (id r, full_text r)) (graph_rag_rows w fc top_k emb)).
Proof.
  apply graph_rag_rows_NoDup. intros r1 r2 H1 H2 E.
  destruct (aggregate_fields r1) as (I1 & T1 & _).
  destruct (aggregate_fields r2) as (I2 & T2 & _).
  injection E as Ei Et. apply same_key; congruence.
Qed.

Lemma graph_rag_rows_NoDup_ids :
  Terms.single_text (graph w) = true ->
  NoDup (map id (graph_rag_rows w fc top_k emb)).
Proof.
  intros Hsingle. apply graph_rag_rows_NoDup. intros r1 r2 H1 H2 E.
  destruct (aggregate_fields r1) as (I1 & _).
  destruct (aggregate_fields r2) as (I2 & _).
  assert (Ei : elementId (precedent r1) = elementId (precedent r2))
    by congruence.
  apply same_key; try assumption.
  pose proof (row_precedent w fc top_k emb r1 H1) as Hp.
  apply get_node_id in Hp. destruct Hp as [_ Hnode].
  unfold Terms.single_text in Hsingle. rewrite forallb_forall in Hsingle.
  specialize (Hsingle _ Hnode). apply Nat.leb_le in Hsingle.
  apply match_rows_In in H1, H2.
  destruct H1 as (_ & _ & Ht1), H2 as (_ & _ & Ht2).
  rewrite <- Ei in Ht2.
  eapply distinct_single; [exact Hsingle | |]; apply in_map; assumption.
Qed.

End GraphResults.

(** What [graph_rag_search] returns is the empty list or the rows of its
    query. *)
Lemma graph_rag_search_result (w : World) (emb : Embedding) (strat : string)
      (k : nat) (f : bool) (st st' : St) (l : list App.Result) :
  App.graph_rag_search w emb strat k f st = (Ok l, st') ->
  l = [] \/ l = App.graph_rag_rows w (App.filter_clause strat f) k emb.
Proof.
  rewrite graph_rag_search_run. intros H. injection H as <- _.
  destruct (driver w); [destruct (store_down w (clock st))|]; auto.
Qed.




(** C3.  [graph_rag_search] always returns; in what it returns the
    [relevance_score] of a precedent is the greatest of the scores of the
    anchors that reach it (one of them, and not below any of them), the
    results are in the order of [citation_count] descending, then
    [relevance_score] descending, and there are at most 5 of them. *)
Theorem relevance_is_max_and_results_ranked
        (w : World) (emb : Embedding) (strat : string) (k : nat) (f : bool)
        (st : St) :
  exists l st',
    App.graph_rag_search w emb strat k f st = (Ok l, st')
    /\ (forall r, In r l ->
          let scores :=
            map snd (Worded.reaching w (App.filter_clause strat f) k emb
                                     (App.id r)) in
          In (App.relevance_score r) scores
          /\ forall s, In s scores -> (s <= App.relevance_score r)%Q)
    /\ StronglySorted Terms.ranked l
    /\ (List.length l <= 5)%nat.
Proof.
  destruct (graph_rag_search_returns w emb strat k f st) as (l & st' & Hrun).
  exists l, st'. split; [exact Hrun|].
  destruct (graph_rag_search_result _ _ _ _ _ _ _ _ Hrun) as [-> | ->].
  - split; [intros r []|]. split; [constructor | simpl; lia].
  - split; [intros r Hr; apply result_relevance, Hr|].
    apply graph_rag_rows_sorted.
Qed.

(** C7, as worded, fails.  Two opinions with different texts hang on [Y]:
    the optional match doubles its rows, the text is part of the grouping
    key, and [Y] is returned twice. *)
Lemma two_texts_return_the_case_twice :
  exists l,
    fst (App.graph_rag_search
           (Fixtures.world Fixtures.two_texts [(Fixtures.X, (9 # 10)%Q)])
           Fixtures.emb "defense" 5 false initial)
    = Ok l
    /\ map App.id l = ["Y"; "Y"]%string.
Proof.
  eexists. split; vm_compute; reflexivity.
Qed.

(** C7, amended.  In one output of [graph_rag_search] no pair of case id and
    [full_text] appears twice, however many anchors and paths reach the
    precedent; when no node of the store has two attached texts that differ,
    no case id appears twice. *)
Theorem no_case_twice_for_one_text
        (w : World) (emb : Embedding) (strat : string) (k : nat) (f : bool)
        (st : St) :
  exists l st',
    App.graph_rag_search w emb strat k f st = (Ok l, st')
    /\ NoDup (map (fun r => (App.id r, App.full_text r)) l)
    /\ (Terms.single_text (graph w) = true -> NoDup (map App.id l)).
Proof.
  destruct (graph_rag_search_returns w emb strat k f st) as (l & st' & Hrun).
  exists l, st'. split; [exact Hrun|].
  destruct (graph_rag_search_result _ _ _ _ _ _ _ _ Hrun) as [-> | ->].
  - split; [constructor | intros _; constructor].
  - split; [apply graph_rag_rows_NoDup_pairs | apply graph_rag_rows_NoDup_ids].
Qed.

Lemma no_case_twice_for_one_text_witness :
  exists l st',
    App.graph_rag_search
      (Fixtures.world Fixtures.two_paths [(Fixtures.X, (9 # 10)%Q)])
      Fixtures.emb "defense" 5 false initial = (Ok l, st')
    /\ NoDup (map App.id l).
Proof.
  destruct (no_case_twice_for_one_text
              (Fixtures.world Fixtures.two_paths [(Fixtures.X, (9 # 10)%Q)])
              Fixtures.emb "defense" 5 false initial)
    as (l & st' & Hrun & _ & H).
  exists l, st'. split; [exact Hrun|]. apply H. vm_compute. reflexivity.
Defined.

(* ------------------------------------------------------------------ *)
(** ** More on the scoring function *)

Section ScoringMore.

Import Benchmark Views.

Variable normalize : string -> string.

Lemma scan_existsb (g l : list Item) (m : Q) :
  scan normalize (true_ids g) (true_offenses normalize g) l m
  = if existsb (is_hard g) l then 1%Q
    else if existsb (is_soft normalize g) l then (1 # 2)%Q else m.
Proof.
  revert m. induction l as [|found rest IH]; intros m; simpl.
  - reflexivity.
  - unfold is_hard at 1, is_soft at 1.
    destruct (memb string_dec (id found) (true_ids g)); simpl; [reflexivity|].
    rewrite IH.
    destruct (existsb (is_hard g) rest); [reflexivity|].
    destruct (memb string_dec (found_offense normalize found)
                   (true_offenses normalize g)); simpl;
      [|reflexivity].
    destruct (existsb (is_soft normalize g) rest); reflexivity.
Qed.

Lemma calculate_score_existsb (g l : list Item) :
  calculate_score normalize g l
  = if existsb (is_hard g) l then 1%Q
    else if existsb (is_soft normalize g) l then (1 # 2)%Q else 0%Q.
Proof.
  apply scan_existsb.
Qed.

Lemma existsb_perm {A : Type} (f : A -> bool) (l l' : list A) :
  Permutation l l' -> existsb f l = existsb f l'.
Proof.
  intros H. apply eq_true_iff_eq. rewrite !existsb_exists.
  split; intros (x & Hx & Hf); exists x; split; try assumption.
  - eapply Permutation_in; eassumption.
  - eapply Permutation_in; [apply Permutation_sym|]; eassumption.
Qed.

Lemma existsb_nil_test {A : Type} (f : A -> bool) (l : list A) :
  (forall x, f x = false) -> existsb f l = false.
Proof.
  intros H. induction l as [|x t IH]; simpl; [reflexivity|].
  rewrite H, IH. reflexivity.
Qed.

End ScoringMore.

(** X1.  The score does not depend on the order of the retrieved list. *)
Theorem calculate_score_any_order
        (normalize : string -> string)
        (ground_truth_list retrieved_list reordered : list Benchmark.Item)
        (Hperm : Permutation retrieved_list reordered) :
  Benchmark.calculate_score normalize ground_truth_list retrieved_list
  = Benchmark.calculate_score normalize ground_truth_list reordered.
Proof.
  rewrite !calculate_score_existsb.
  rewrite (existsb_perm (Views.is_hard ground_truth_list) _ _ Hperm).
  rewrite (existsb_perm (Views.is_soft normalize ground_truth_list) _ _ Hperm).
  reflexivity.
Qed.

Lemma calculate_score_any_order_witness :
  Benchmark.calculate_score
    Benchmark.ascii_normalize
    [Benchmark.mkItem "a" (Some "Theft")]
    [Benchmark.mkItem "b" (Some "theft"); Benchmark.mkItem "a" None]
  = Benchmark.calculate_score
      Benchmark.ascii_normalize
      [Benchmark.mkItem "a" (Some "Theft")]
      [Benchmark.mkItem "a" None; Benchmark.mkItem "b" (Some "theft")].
Proof.
  apply calculate_score_any_order. apply perm_swap.
Defined.

(** X2.  The score is 0.0, 0.5 or 1.0, and retrieving more never lowers it:
    the score of a list is at most the score of the list with further items
    appended. *)
Theorem calculate_score_grows_with_retrieved
        (normalize : string -> string)
        (ground_truth_list retrieved_list more : list Benchmark.Item) :
  (Benchmark.calculate_score normalize ground_truth_list retrieved_list = 0%Q
   \/ Benchmark.calculate_score normalize ground_truth_list retrieved_list = (1 # 2)%Q
   \/ Benchmark.calculate_score normalize ground_truth_list retrieved_list = 1%Q)
  /\ (Benchmark.calculate_score normalize ground_truth_list retrieved_list
      <= Benchmark.calculate_score normalize ground_truth_list (retrieved_list ++ more))%Q.
Proof.
  rewrite !calculate_score_existsb, !existsb_app.
  destruct (existsb (Views.is_hard ground_truth_list) retrieved_list);
    destruct (existsb (Views.is_soft normalize ground_truth_list) retrieved_list);
    destruct (existsb (Views.is_hard ground_truth_list) more);
    destruct (existsb (Views.is_soft normalize ground_truth_list) more);
    simpl; split; auto; discriminate.
Qed.

(** X3.  With an empty ground truth the score is 0.0 whatever was
    retrieved, and with nothing retrieved it is 0.0 whatever the ground
    truth. *)
Theorem calculate_score_of_nothing
        (normalize : string -> string) (items : list Benchmark.Item) :
  Benchmark.calculate_score normalize [] items = 0%Q
  /\ Benchmark.calculate_score normalize items [] = 0%Q.
Proof.
  split; [|reflexivity].
  rewrite calculate_score_existsb.
  rewrite (existsb_nil_test (Views.is_hard [])) by reflexivity.
  rewrite (existsb_nil_test (Views.is_soft normalize [])) by reflexivity.
  reflexivity.
Qed.

(* ------------------------------------------------------------------ *)
(** ** More on the retrieval of the benchmark *)

Section RetrievalMore.

Import Store Benchmark.
Variable w : World.

Lemma is_some_true {A : Type} (o : option A) : is_some o = true <-> o <> None.
Proof.
  destruct o; simpl; split; congruence.
Qed.

Lemma vector_query_offense (emb : Embedding) (original_id : string)
      (r : Scored) :
  In r (vector_query w emb original_id) -> snd (fst r) <> None.
Proof.
  unfold vector_query. intros H. apply firstn_In in H.
  rewrite order_by_In, in_map_iff in H.
  destruct H as ([n s] & <- & H). apply filter_In in H.
  destruct H as [_ Hf]. apply andb_true_iff in Hf. destruct Hf as [_ Ho].
  simpl in *. apply is_some_true, Ho.
Qed.

Lemma graph_match_In (emb : Embedding) (original_id : string) (p : Node)
      (s : Q) :
  In (p, s) (graph_match w emb original_id) ->
  get_node (graph w) (elementId p) = Some p /\ Store.offense p <> None.
Proof.
  unfold graph_match. rewrite in_flat_map. intros ([a sa] & _ & H).
  apply in_map_iff in H. destruct H as (p' & E & H). injection E as -> ->.
  apply filter_In in H. destruct H as [H Ho]. apply reach_1_2_In in H.
  split; [tauto | apply is_some_true, Ho].
Qed.

Lemma graph_query_offense (emb : Embedding) (original_id : string)
      (r : Scored) :
  In r (graph_query w emb original_id) -> snd (fst r) <> None.
Proof.
  unfold graph_query. intros H. apply firstn_In in H.
  rewrite order_by_In, in_map_iff in H.
  destruct H as (k & <- & H). rewrite distinct_In, in_map_iff in H.
  destruct H as ([p s] & <- & H). simpl.
  apply graph_match_In in H. tauto.
Qed.

(** The graph query groups by identifier and offense, and the offense
    follows from the identifier: no identifier is returned twice. *)
Lemma graph_query_NoDup (emb : Embedding) (original_id : string) :
  NoDup (map (fun r : Scored => fst (fst r)) (graph_query w emb original_id)).
Proof.
  unfold graph_query. rewrite <- firstn_map. apply firstn_NoDup.
  eapply Permutation_NoDup.
  { apply Permutation_map, Permutation_sym, order_by_perm. }
  rewrite map_map. simpl. apply NoDup_map_in_inj; [|apply distinct_NoDup].
  intros k1 k2 H1 H2 E.
  rewrite distinct_In, in_map_iff in H1, H2.
  destruct H1 as ([p1 s1] & <- & H1), H2 as ([p2 s2] & <- & H2).
  apply graph_match_In in H1, H2. destruct H1 as [H1 _], H2 as [H2 _].
  unfold gkey_of in *. simpl in *. rewrite E in H1. rewrite H1 in H2.
  injection H2 as <-. reflexivity.
Qed.

Lemma query_length (emb : Embedding) (original_id : string) (use_graph : bool) :
  (List.length (if use_graph then graph_query w emb original_id
                else vector_query w emb original_id) <= 10)%nat.
Proof.
  destruct use_graph; apply firstn_le_length.
Qed.

End RetrievalMore.

(** X4.  In both modes [retrieve_cases] returns at most 10 items and every
    returned item has an offense; in the graph mode no id is returned
    twice. *)
Theorem retrieve_cases_at_most_ten_with_offense
        (w : World) (emb : Embedding) (original_id : string)
        (use_graph : bool) (st st' : St) (l : list Benchmark.Item)
        (Hrun : Benchmark.retrieve_cases w emb original_id use_graph st
                = (Ok l, st')) :
  (List.length l <= 10)%nat
  /\ (forall r, In r l -> Benchmark.offense r <> None)
  /\ (use_graph = true -> NoDup (map Benchmark.id l)).
Proof.
  rewrite retrieve_cases_run in Hrun.
  destruct (store_down w (clock st)); [discriminate|].
  injection Hrun as Hl _. subst l. split; [|split].
  - rewrite length_map. apply query_length.
  - intros r Hin. apply in_map_iff in Hin. destruct Hin as (x & <- & Hin).
    simpl. destruct use_graph.
    + eapply graph_query_offense, Hin.
    + eapply vector_query_offense, Hin.
  - intros ->. rewrite map_map. simpl. apply graph_query_NoDup.
Qed.

Lemma retrieve_cases_at_most_ten_with_offense_witness :
  NoDup (map Benchmark.id [Benchmark.mkItem "X" (Some "Theft")]).
Proof.
  apply (retrieve_cases_at_most_ten_with_offense
           (Fixtures.world Fixtures.cited_source
                           [(Fixtures.X, 1%Q); (Fixtures.B, (9 # 10)%Q)])
           Fixtures.emb "X" true initial
           (mkSt 1 [RetrieveCases "X" true])
           [Benchmark.mkItem "X" (Some "Theft")]).
  - vm_compute. reflexivity.
  - reflexivity.
Defined.

(* ------------------------------------------------------------------ *)
(** ** More on the graph search *)

Section GraphMore.

Import Store App.
Variable w : World.
Variable top_k : nat.
Variable emb : Embedding.

Lemma aggregate_more (fc : FilterClause) (r0 : Row) :
  let rows := match_rows w fc top_k emb in
  let r := aggregate rows (key_of r0) in
  decision r = decisionSummary (precedent r0)
  /\ title r = name (precedent r0)
  /\ found_via r
     = firstn 3 (distinct string_dec
                   (non_null (map (fun x => name (anchorCase x))
                                  (group (key_of r0) rows)))).
Proof.
  repeat split.
Qed.

Lemma result_passes_filter (fc : FilterClause) (r : Result) :
  In r (graph_rag_rows w fc top_k emb) ->
  exists p, holds fc p = true /\ decision r = decisionSummary p.
Proof.
  intros H. apply graph_rag_rows_In in H. destruct H as (r0 & Hr0 & ->).
  exists (precedent r0). split; [|apply aggregate_more].
  apply match_rows_In in Hr0. destruct Hr0 as (_ & Hp & _).
  unfold precedents_of in Hp. apply filter_In in Hp. tauto.
Qed.

Lemma result_found_via (fc : FilterClause) (r : Result) :
  In r (graph_rag_rows w fc top_k emb) ->
  (List.length (found_via r) <= 3)%nat
  /\ NoDup (found_via r)
  /\ forall n, In n (found_via r) ->
               exists a s, In (a, s) (Worded.reaching w fc top_k emb (id r))
                           /\ name a = Some n.
Proof.
  intros H. apply graph_rag_rows_In in H. destruct H as (r0 & Hr0 & ->).
  destruct (aggregate_more fc r0) as (_ & _ & ->).
  destruct (aggregate_fields w fc top_k emb r0) as (-> & _).
  split; [apply firstn_le_length|]. split.
  - apply firstn_NoDup, distinct_NoDup.
  - intros n Hn. apply firstn_In in Hn.
    rewrite distinct_In, non_null_In, in_map_iff in Hn.
    destruct Hn as (x & Hname & Hx).
    assert (Hs : In (score x)
                    (map score (group (key_of r0) (match_rows w fc top_k emb))))
      by (apply in_map, Hx).
    unfold group in Hx. apply filter_In in Hx. destruct Hx as [Hx K].
    destruct (Key_dec (key_of x) (key_of r0)) as [E|]; [|discriminate].
    pose proof (row_precedent w fc top_k emb x Hx) as Hp.
    destruct x as [a sa p t]; simpl in *.
    apply (key_of_eq w fc top_k emb) in E; auto. destruct E as [E _].
    apply match_rows_In in Hx. simpl in Hx. destruct Hx as (Ha & Hpa & _).
    exists a, sa. split; [|exact Hname].
    unfold Worded.reaching. apply filter_In. split; [exact Ha|]. simpl.
    apply existsb_exists. exists p. split; [exact Hpa|].
    apply String.eqb_eq, E.
Qed.

(** A row that passes a filter is a row of the query without filter. *)
Lemma match_rows_unfiltered (fc : FilterClause) (r : Row) :
  In r (match_rows w fc top_k emb) -> In r (match_rows w NoClause top_k emb).
Proof.
  rewrite !match_rows_In. intros (Ha & Hp & Ht). repeat split; try assumption.
  unfold precedents_of in *. apply filter_In in Hp. apply filter_In.
  split; [tauto | reflexivity].
Qed.

Lemma graph_rag_rows_nil (fc : FilterClause) :
  graph_rag_rows w fc top_k emb = [] <-> match_rows w fc top_k emb = [].
Proof.
  unfold graph_rag_rows. split.
  - intros H.
    destruct (match_rows w fc top_k emb) as [|r0 rows] eqn:E; [reflexivity|].
    exfalso.
    assert (Hk : In (key_of r0) (distinct Key_dec (map key_of (r0 :: rows))))
      by (apply distinct_In; left; reflexivity).
    destruct (distinct Key_dec (map key_of (r0 :: rows))) as [|k ks];
      [contradiction|].
    pose proof (Permutation_length
                  (order_by_perm ranks_before
                                 (map (aggregate (r0 :: rows)) (k :: ks))))
      as Hlen.
    destruct (order_by ranks_before (map (aggregate (r0 :: rows)) (k :: ks)));
      simpl in *; discriminate.
  - intros ->. reflexivity.
Qed.

End GraphMore.

(** X5.  With the outcome filter on, every result of [graph_rag_search] has a
    decision summary, and it contains, whatever the case of its letters,
    "reverse" or "acquit" when the strategy is "defense" and "affirm" for
    any other strategy. *)
Theorem filtered_results_carry_the_keyword
        (w : World) (emb : Embedding) (strat : string) (k : nat)
        (st st' : St) (l : list App.Result) (r : App.Result)
        (Hrun : App.graph_rag_search w emb strat k true st = (Ok l, st'))
        (Hin : In r l) :
  exists d,
    App.decision r = Some d
    /\ if String.eqb strat "defense"
       then Str.contains "reverse" (Str.lower d) = true
            \/ Str.contains "acquit" (Str.lower d) = true
       else Str.contains "affirm" (Str.lower d) = true.
Proof.
  destruct (graph_rag_search_result _ _ _ _ _ _ _ _ Hrun) as [-> | ->];
    [contradiction|].
  apply result_passes_filter in Hin. destruct Hin as (p & Hp & ->).
  unfold App.filter_clause in Hp.
  destruct (String.eqb strat "defense"); simpl in Hp;
    destruct (Store.decisionSummary p) as [d|]; try discriminate;
    exists d; (split; [reflexivity|]).
  - rewrite !orb_true_iff in Hp. destruct Hp as [H|[H|H]]; auto. discriminate.
  - rewrite orb_true_iff in Hp. destruct Hp as [H|H]; auto. discriminate.
Qed.

Lemma filtered_results_carry_the_keyword_witness :
  exists d,
    Some "Conviction affirmed" = Some d
    /\ Str.contains "affirm" (Str.lower d) = true.
Proof.
  apply (filtered_results_carry_the_keyword
           (Fixtures.world Fixtures.two_paths [(Fixtures.X, (9 # 10)%Q)])
           Fixtures.emb "prosecution" 5 initial
           (mkSt 1 [GraphRagSearch "prosecution" true])
           [App.mkResult "Y" (Some "Case Y") (Some "Theft")
                         (Some "Conviction affirmed") None 2 ["Case X"]
                         (9 # 10)]
           (App.mkResult "Y" (Some "Case Y") (Some "Theft")
                         (Some "Conviction affirmed") None 2 ["Case X"]
                         (9 # 10))).
  - vm_compute. reflexivity.
  - left. reflexivity.
Defined.

(** X6.  The [found_via] of a result of [graph_rag_search] holds at most 3
    names, no name twice, and each is the name of an anchor whose traversal
    reaches the precedent. *)
Theorem found_via_names_reaching_anchors
        (w : World) (emb : Embedding) (strat : string) (k : nat) (f : bool)
        (st st' : St) (l : list App.Result) (r : App.Result)
        (Hrun : App.graph_rag_search w emb strat k f st = (Ok l, st'))
        (Hin : In r l) :
  (List.length (App.found_via r) <= 3)%nat
  /\ NoDup (App.found_via r)
  /\ forall n, In n (App.found_via r) ->
       exists a s,
         In (a, s) (Worded.reaching w (App.filter_clause strat f) k emb
                                    (App.id r))
         /\ Store.name a = Some n.
Proof.
  destruct (graph_rag_search_result _ _ _ _ _ _ _ _ Hrun) as [-> | ->];
    [contradiction|].
  apply result_found_via, Hin.
Qed.

Lemma found_via_names_reaching_anchors_witness :
  NoDup ["Case X"]%string.
Proof.
  apply (found_via_names_reaching_anchors
           (Fixtures.world Fixtures.two_paths [(Fixtures.X, (9 # 10)%Q)])
           Fixtures.emb "prosecution" 5 true initial
           (mkSt 1 [GraphRagSearch "prosecution" true])
           [App.mkResult "Y" (Some "Case Y") (Some "Theft")
                         (Some "Conviction affirmed") None 2 ["Case X"]
                         (9 # 10)]
           (App.mkResult "Y" (Some "Case Y") (Some "Theft")
                         (Some "Conviction affirmed") None 2 ["Case X"]
                         (9 # 10))).
  - vm_compute. reflexivity.
  - left. reflexivity.
Defined.

(** X7.  The outcome filter only removes: when the query of
    [graph_rag_search] with the filter has a result, the query without the
    filter has one too. *)
Theorem unfiltered_query_finds_when_filtered_does
        (w : World) (emb : Embedding) (strat : string) (k : nat)
        (Hgold : App.graph_rag_rows w (App.filter_clause strat true) k emb
                 <> []) :
  App.graph_rag_rows w (App.filter_clause strat false) k emb <> [].
Proof.
  rewrite graph_rag_rows_nil in *.
  destruct (App.match_rows w (App.filter_clause strat true) k emb)
    as [|r0 rows] eqn:E; [congruence|].
  assert (H : In r0 (App.match_rows w App.NoClause k emb)).
  { apply match_rows_unfiltered with (fc := App.filter_clause strat true).
    rewrite E. left. reflexivity. }
  simpl. intros E'. rewrite E' in H. contradiction.
Qed.

Lemma unfiltered_query_finds_when_filtered_does_witness :
  App.graph_rag_rows
    (Fixtures.world Fixtures.two_paths [(Fixtures.X, (9 # 10)%Q)])
    (App.filter_clause "prosecution" false) 5 Fixtures.emb <> [].
Proof.
  apply (unfiltered_query_finds_when_filtered_does
           (Fixtures.world Fixtures.two_paths [(Fixtures.X, (9 # 10)%Q)])
           Fixtures.emb "prosecution" 5).
  vm_compute. discriminate.
Defined.

(* ------------------------------------------------------------------ *)
(** ** More on Bronze and on the analyze step *)

Section BronzeMore.

Import Store App.

Let by_relevance (a b : Result) : bool :=
  Qle_bool (relevance_score b) (relevance_score a).

Lemma by_relevance_total (a b : Result) :
  by_relevance a b = false -> by_relevance b a = true.
Proof.
  unfold by_relevance. intros H. apply Qle_bool_iff.
  destruct (Qlt_le_dec (relevance_score a) (relevance_score b)) as [L|L].
  - apply Qlt_le_weak, L.
  - apply Qle_bool_iff in L. congruence.
Qed.

Lemma by_relevance_trans (a b c : Result) :
  by_relevance a b = true -> by_relevance b c = true ->
  by_relevance a c = true.
Proof.
  unfold by_relevance. rewrite !Qle_bool_iff. intros H1 H2.
  eapply Qle_trans; eassumption.
Qed.

Lemma vector_only_rows_sorted (w : World) (emb : Embedding) (k : nat) :
  StronglySorted (fun a b => (relevance_score b <= relevance_score a)%Q)
                 (vector_only_rows w emb k).
Proof.
  unfold vector_only_rows.
  eapply sorted_weaken;
    [|apply (order_by_sorted by_relevance by_relevance_total
                             by_relevance_trans)].
  intros x y. unfold by_relevance. apply Qle_bool_iff.
Qed.

Lemma vector_only_rows_hit (w : World) (emb : Embedding) (k : nat)
      (r : Result) :
  In r (vector_only_rows w emb k) ->
  exists n s, In (n, s) (queryNodes w NEO4J_VECTOR_INDEX k emb)
              /\ id r = elementId n /\ title r = name n
              /\ offense r = Store.offense n
              /\ decision r = decisionSummary n
              /\ relevance_score r = s.
Proof.
  unfold vector_only_rows. rewrite order_by_In, in_flat_map.
  intros ([n s] & Hn & Hr). apply in_map_iff in Hr.
  destruct Hr as (t & <- & _). exists n, s. simpl. repeat split. exact Hn.
Qed.

Lemma get_embedding_run (w : World) (text : string) (st : St) :
  get_embedding w text st
  = (Ok (embed_content w text),
     mkSt (clock st) (log st ++ [EmbedContent text])).
Proof.
  unfold get_embedding, try_except, bind, genai_embed_content, ret.
  destruct (embed_content w text); reflexivity.
Qed.

(** The label the cascade returns, and what it says about the results. *)
Lemma cascade_label (w : World) (emb : Embedding) (strat : string) (st : St) :
  exists l m st',
    cascade w emb strat st = (Ok (l, m), st')
    /\ ((m = "Gold" /\ l <> []) \/ (m = "Silver" /\ l <> []) \/ m = "Bronze").
Proof.
  destruct (graph_rag_search_returns w emb strat 5 true st)
    as ([|r gold] & st1 & Hg).
  - destruct (graph_rag_search_returns w emb strat 5 false st1)
      as ([|r silver] & st2 & Hs).
    + destruct (vector_only_search_returns w emb 5 st2) as (bronze & st3 & Hb).
      exists bronze, "Bronze", st3. split; [|auto].
      eapply cascade_bronze; eassumption.
    + exists (r :: silver), "Silver", st2. split.
      * eapply cascade_silver; try eassumption. discriminate.
      * right. left. split; [reflexivity|discriminate].
  - exists (r :: gold), "Gold", st1. split.
    + eapply cascade_gold; try eassumption. discriminate.
    + left. split; [reflexivity|discriminate].
Qed.

End BronzeMore.

(** X8.  [vector_only_search] always returns; what it returns is in the order
    of [relevance_score] descending, and every result carries the id, title,
    offense, decision and score of one hit of the vector index. *)
Theorem bronze_results_are_ranked_index_hits
        (w : World) (emb : Embedding) (k : nat) (st : St) :
  exists l st',
    App.vector_only_search w emb k st = (Ok l, st')
    /\ StronglySorted
         (fun a b => (App.relevance_score b <= App.relevance_score a)%Q) l
    /\ forall r, In r l ->
         exists n s,
           In (n, s) (queryNodes w App.NEO4J_VECTOR_INDEX k emb)
           /\ App.id r = Store.elementId n /\ App.title r = Store.name n
           /\ App.offense r = Store.offense n
           /\ App.decision r = Store.decisionSummary n
           /\ App.relevance_score r = s.
Proof.
  rewrite vector_only_search_run. do 2 eexists. split; [reflexivity|].
  destruct (driver w); [destruct (store_down w (clock st))|];
    try (split; [constructor | intros r []]).
  split; [apply vector_only_rows_sorted | apply vector_only_rows_hit].
Qed.

(* ------------------------------------------------------------------ *)
(** ** The citation map *)

Section CitationMap.

Import AppView ViewTerms.

Lemma add_node_well_formed (c : Canvas) (n : Node) :
  well_formed c -> ~ In (node_id n) (node_ids c) ->
  well_formed (mkCanvas (nodes c ++ [n]) (edges c)
                        (node_id n :: existing_nodes c)).
Proof.
  intros (Hnd & Hex & Hu & He) Hfresh.
  assert (Hids : forall i, In i (map node_id (nodes c ++ [n]))
                           <-> node_id n = i \/ In i (map node_id (nodes c))).
  { intros i. rewrite map_app, in_app_iff. simpl. tauto. }
  unfold well_formed, node_ids in *. simpl.
  split; [|split; [|split]].
  - rewrite map_app. simpl.
    apply Permutation_NoDup with (l := node_id n :: map node_id (nodes c)).
    + apply Permutation_cons_append.
    + constructor; assumption.
  - intros i. rewrite Hids, Hex. reflexivity.
  - apply Hids. right. exact Hu.
  - intros e H. rewrite !Hids. destruct (He e H). auto.
Qed.

Lemma add_edge_well_formed (c : Canvas) (e : Edge) :
  well_formed c -> In (source e) (node_ids c) -> In (target e) (node_ids c) ->
  well_formed (mkCanvas (nodes c) (edges c ++ [e]) (existing_nodes c)).
Proof.
  intros (Hnd & Hex & Hu & He) Hs Ht.
  unfold well_formed, node_ids in *. simpl.
  split; [|split; [|split]]; try assumption.
  intros x H. apply in_app_or in H. destruct H as [H|[<-|[]]]; auto.
Qed.

Lemma node_ids_add_node (c : Canvas) (n : Node) (es : list Edge)
      (ex : list string) (i : string) :
  In i (node_ids c) -> In i (node_ids (mkCanvas (nodes c ++ [n]) es ex)).
Proof.
  unfold node_ids. simpl. rewrite map_app. intros H. apply in_or_app. auto.
Qed.

Lemma add_source_well_formed (cid : string) (c : Canvas) (n : string) :
  well_formed c -> In cid (node_ids c) ->
  well_formed (add_source cid c n) /\ In cid (node_ids (add_source cid c n)).
Proof.
  intros Hw Hcid. pose proof Hw as (_ & Hex & _). unfold add_source.
  destruct (memb string_dec (source_id_of n) (existing_nodes c)) eqn:E.
  - apply memb_true_iff in E. split; [|exact Hcid].
    apply add_edge_well_formed; try assumption. apply Hex, E.
  - apply memb_false_iff in E.
    match goal with
    | |- context [nodes c ++ [?x]] => set (nd := x)
    end.
    assert (Hw1 : well_formed (mkCanvas (nodes c ++ [nd]) (edges c)
                                        (node_id nd :: existing_nodes c))).
    { apply add_node_well_formed; [exact Hw|]. intros H. apply E, Hex, H. }
    split.
    + apply (add_edge_well_formed _ _ Hw1); simpl.
      * unfold node_ids. simpl. rewrite map_app. apply in_or_app.
        right. left. reflexivity.
      * apply node_ids_add_node, Hcid.
    + simpl. apply (node_ids_add_node c nd _ _ cid Hcid).
Qed.

Lemma add_sources_well_formed (cid : string) (names : list string) (c : Canvas) :
  well_formed c -> In cid (node_ids c) ->
  well_formed (fold_left (add_source cid) names c)
  /\ In cid (node_ids (fold_left (add_source cid) names c)).
Proof.
  revert c. induction names as [|n t IH]; intros c Hw Hc; simpl; [auto|].
  destruct (add_source_well_formed cid c n Hw Hc) as [Hw' Hc'].
  apply IH; assumption.
Qed.

Lemma add_case_well_formed (strategy : string) (c c' : Canvas)
      (case : App.Result) :
  well_formed c -> add_case strategy c case = Ok c' ->
  well_formed c' /\ In (App.id case) (existing_nodes c').
Proof.
  intros Hw. pose proof Hw as (_ & Hex & Hu & _). unfold add_case.
  destruct (memb string_dec (App.id case) (existing_nodes c)) eqn:E.
  - intros H. injection H as <-. apply memb_true_iff in E. auto.
  - destruct (App.title case) as [t|]; [|discriminate].
    intros H. injection H as <-. apply memb_false_iff in E.
    match goal with
    | |- context [nodes c ++ [?x]] => set (nd := x)
    end.
    match goal with
    | |- context [edges c ++ [?x]] => set (ed := x)
    end.
    assert (Hw1 : well_formed (mkCanvas (nodes c ++ [nd]) (edges c)
                                        (node_id nd :: existing_nodes c))).
    { apply add_node_well_formed; [exact Hw|]. intros H. apply E, Hex, H. }
    assert (Hc1 : In (App.id case)
                     (node_ids (mkCanvas (nodes c ++ [nd]) (edges c ++ [ed])
                                         (App.id case :: existing_nodes c)))).
    { unfold node_ids. simpl. rewrite map_app. apply in_or_app.
      right. left. reflexivity. }
    assert (Hw2 : well_formed (mkCanvas (nodes c ++ [nd]) (edges c ++ [ed])
                                        (App.id case :: existing_nodes c))).
    { apply (add_edge_well_formed _ ed Hw1); simpl.
      - apply node_ids_add_node. exact Hu.
      - exact Hc1. }
    destruct (add_sources_well_formed _ (App.found_via case) _ Hw2 Hc1)
      as [Hw3 Hc3].
    split; [exact Hw3|]. destruct Hw3 as (_ & Hex3 & _). apply Hex3, Hc3.
Qed.

Lemma add_cases_well_formed (strategy : string) (results : list App.Result)
      (c c' : Canvas) :
  well_formed c -> add_cases strategy results c = Ok c' -> well_formed c'.
Proof.
  revert c. induction results as [|case rest IH]; intros c Hw; simpl.
  - intros H. injection H as <-. exact Hw.
  - destruct (add_case strategy c case) as [c1|] eqn:E; [|discriminate].
    apply IH. eapply add_case_well_formed; eassumption.
Qed.

Lemma start_well_formed : well_formed (mkCanvas [user_node] [] ["USER"]).
Proof.
  unfold well_formed, node_ids; simpl.
  split; [|split; [|split]].
  - constructor; [intros []|constructor].
  - intros i. reflexivity.
  - left. reflexivity.
  - intros e [].
Qed.

(** The first node never moves. *)
Lemma add_source_head (cid : string) (c : Canvas) (n : string) (x : Node)
      (t : list Node) :
  nodes c = x :: t -> exists t', nodes (add_source cid c n) = x :: t'.
Proof.
  intros H. unfold add_source.
  destruct (memb string_dec (source_id_of n) (existing_nodes c)); simpl.
  - eauto.
  - rewrite H. simpl. eauto.
Qed.

Lemma add_sources_head (cid : string) (names : list string) (c : Canvas)
      (x : Node) (t : list Node) :
  nodes c = x :: t ->
  exists t', nodes (fold_left (add_source cid) names c) = x :: t'.
Proof.
  revert c t. induction names as [|n ns IH]; intros c t H; simpl; [eauto|].
  destruct (add_source_head cid c n x t H) as (t' & H'). eapply IH, H'.
Qed.

Lemma add_cases_head (strategy : string) (results : list App.Result)
      (c c' : Canvas) (x : Node) (t : list Node) :
  nodes c = x :: t -> add_cases strategy results c = Ok c' ->
  exists t', nodes c' = x :: t'.
Proof.
  revert c t. induction results as [|case rest IH]; intros c t H; simpl.
  - intros E. injection E as <-. eauto.
  - destruct (add_case strategy c case) as [c1|] eqn:E; [|discriminate].
    unfold add_case in E.
    destruct (memb string_dec (App.id case) (existing_nodes c)).
    + injection E as <-. eapply IH, H.
    + destruct (App.title case); [|discriminate]. injection E as <-.
      match goal with
      | |- context [fold_left _ _ ?c0] =>
          destruct (add_sources_head (App.id case) (App.found_via case) c0 x
                                     (t ++ [mkNode (App.id case)
                                                   (Str.take 15 s ++ "...") s 25
                                                   (node_color strategy
                                                      (is_fav (App.decision case)))
                                                   (mkFont "#2C2520" None (Some 12))
                                                   None]))
            as (t' & H')
      end.
      { simpl. rewrite H. reflexivity. }
      eapply IH, H'.
Qed.

(** A case whose identifier is on the canvas changes nothing. *)
Lemma add_case_seen (strategy : string) (c : Canvas) (case : App.Result) :
  In (App.id case) (existing_nodes c) -> add_case strategy c case = Ok c.
Proof.
  intros H. unfold add_case.
  apply (memb_true_iff string_dec) in H. rewrite H. reflexivity.
Qed.

Lemma add_source_existing (cid : string) (c : Canvas) (n i : string) :
  In i (existing_nodes c) -> In i (existing_nodes (add_source cid c n)).
Proof.
  intros H. unfold add_source.
  destruct (memb string_dec (source_id_of n) (existing_nodes c)); simpl; auto.
Qed.

Lemma add_sources_existing (cid : string) (names : list string) (c : Canvas)
      (i : string) :
  In i (existing_nodes c) ->
  In i (existing_nodes (fold_left (add_source cid) names c)).
Proof.
  revert c. induction names as [|n ns IH]; intros c H; simpl; [exact H|].
  apply IH, add_source_existing, H.
Qed.

Lemma add_case_existing (strategy : string) (c c' : Canvas)
      (case : App.Result) (i : string) :
  add_case strategy c case = Ok c' ->
  (In i (existing_nodes c) \/ i = App.id case) -> In i (existing_nodes c').
Proof.
  unfold add_case.
  destruct (memb string_dec (App.id case) (existing_nodes c)) eqn:E.
  - intros H. injection H as <-. intros [H| ->]; [exact H|].
    apply memb_true_iff in E. exact E.
  - destruct (App.title case); [|discriminate]. intros H. injection H as <-.
    intros H. apply add_sources_existing. simpl.
    destruct H as [H| ->]; auto.
Qed.

Lemma add_cases_existing (strategy : string) (results : list App.Result)
      (c c' : Canvas) (i : string) :
  add_cases strategy results c = Ok c' ->
  (In i (existing_nodes c) \/ In i (map App.id results)) ->
  In i (existing_nodes c').
Proof.
  revert c. induction results as [|case rest IH]; intros c; simpl.
  - intros H. injection H as <-. intros [H|[]]. exact H.
  - destruct (add_case strategy c case) as [c1|] eqn:E; [|discriminate].
    intros H Hi. apply (IH c1 H).
    destruct Hi as [Hi|[Hi|Hi]]; auto; left;
      eapply add_case_existing; eauto.
Qed.

Lemma add_cases_app (strategy : string) (l l' : list App.Result) (c : Canvas) :
  add_cases strategy (l ++ l') c
  = match add_cases strategy l c with
    | Ok c' => add_cases strategy l' c'
    | Raised => Raised
    end.
Proof.
  revert c. induction l as [|case rest IH]; intros c; simpl; [reflexivity|].
  destruct (add_case strategy c case); [apply IH | reflexivity].
Qed.

(** What is on the canvas comes from "USER", the cases seen and the
    sources. *)
Lemma source_id_prefix (n : string) : String.prefix "SRC_" (source_id_of n) = true.
Proof.
  unfold source_id_of.
  destruct (replace_char " " "_" n); reflexivity.
Qed.

Lemma add_source_known (seen : list string) (cid : string) (c : Canvas)
      (n : string) :
  known_from seen c -> known_from seen (add_source cid c n).
Proof.
  intros H i. unfold add_source.
  destruct (memb string_dec (source_id_of n) (existing_nodes c)); simpl.
  - apply H.
  - intros [<-|Hi]; [|apply H, Hi]. right. right. apply source_id_prefix.
Qed.

Lemma add_sources_known (seen : list string) (cid : string)
      (names : list string) (c : Canvas) :
  known_from seen c -> known_from seen (fold_left (add_source cid) names c).
Proof.
  revert c. induction names as [|n ns IH]; intros c H; simpl; [exact H|].
  apply IH, add_source_known, H.
Qed.

Lemma known_from_more (seen : list string) (x : string) (c : Canvas) :
  known_from seen c -> known_from (seen ++ [x]) c.
Proof.
  intros H i Hi. destruct (H i Hi) as [E|[E|E]]; auto.
  right. left. apply in_or_app. auto.
Qed.

Lemma add_case_known (strategy : string) (seen : list string) (c c' : Canvas)
      (case : App.Result) :
  known_from seen c -> add_case strategy c case = Ok c' ->
  known_from (seen ++ [App.id case]) c'.
Proof.
  intros Hk. unfold add_case.
  destruct (memb string_dec (App.id case) (existing_nodes c)).
  - intros H. injection H as <-. apply known_from_more, Hk.
  - destruct (App.title case); [|discriminate]. intros H. injection H as <-.
    apply add_sources_known. intros i [<-|Hi].
    + right. left. apply in_or_app. right. left. reflexivity.
    + apply (known_from_more seen (App.id case) c Hk i Hi).
Qed.

End CitationMap.

(* ------------------------------------------------------------------ *)
(** ** The citation map, the memo, the cards and the session *)

Section ViewFacts.

Import AppView ViewTerms.

Lemma add_cases_raises (strategy : string) (results : list App.Result)
      (seen : list string) (c : Canvas) :
  known_from seen c ->
  NoDup (seen ++ map App.id results) ->
  (forall r, In r results ->
             App.id r <> "USER" /\ String.prefix "SRC_" (App.id r) = false) ->
  add_cases strategy results c = Raised
  <-> exists r, In r results /\ App.title r = None.
Proof.
  revert seen c. induction results as [|case rest IH]; intros seen c Hk Hnd Hid.
  - simpl. split; [discriminate|]. intros (r & [] & _).
  - assert (Hfresh : ~ In (App.id case) (existing_nodes c)).
    { intros Hin. destruct (Hid case (or_introl eq_refl)) as [Hu Hp].
      destruct (Hk _ Hin) as [E|[E|E]]; [congruence| |congruence].
      simpl in Hnd. apply NoDup_remove_2 in Hnd. apply Hnd.
      apply in_or_app. left. exact E. }
    simpl. destruct (add_case strategy c case) as [c1|] eqn:E.
    + assert (Ht : App.title case <> None).
      { unfold add_case in E.
        apply (memb_false_iff string_dec) in Hfresh. rewrite Hfresh in E.
        destruct (App.title case); [discriminate|discriminate E]. }
      rewrite (IH (seen ++ [App.id case]) c1).
      * split; intros (r & Hr & Hn); exists r; [auto|].
        destruct Hr as [<-|Hr]; [contradiction|auto].
      * eapply add_case_known; eassumption.
      * rewrite <- app_assoc. exact Hnd.
      * intros r Hr. apply Hid. right. exact Hr.
    + split; [|reflexivity]. intros _. exists case. split; [left; reflexivity|].
      unfold add_case in E.
      apply (memb_false_iff string_dec) in Hfresh. rewrite Hfresh in E.
      destruct (App.title case); [discriminate E|reflexivity].
Qed.

Lemma start_known : known_from [] (mkCanvas [user_node] [] ["USER"]).
Proof.
  intros i [<-|[]]. left. reflexivity.
Qed.

Lemma show_precedents_all (fl : Q -> Q) (strat_key : string)
      (l : list App.Result) :
  (forall r, In r l -> App.full_text r <> None) ->
  snd (show_precedents fl strat_key l) = Ok tt
  /\ List.length (fst (show_precedents fl strat_key l)) = (2 * List.length l)%nat.
Proof.
  induction l as [|c t IH]; intros H; simpl.
  - auto.
  - destruct (App.full_text c) as [x|] eqn:E.
    + destruct (show_precedents fl strat_key t) as [shown o].
      simpl in *. destruct IH as [-> ->].
      * intros r Hr. apply H. right. exact Hr.
      * split; [reflexivity|lia].
    + exfalso. apply (H c); [left; reflexivity | exact E].
Qed.

Lemma show_precedents_app (fl : Q -> Q) (strat_key : string)
      (l l' : list App.Result) :
  (forall r, In r l -> App.full_text r <> None) ->
  show_precedents fl strat_key (l ++ l')
  = (fst (show_precedents fl strat_key l)
     ++ fst (show_precedents fl strat_key l'),
     snd (show_precedents fl strat_key l')).
Proof.
  induction l as [|c t IH]; intros H; simpl.
  - destruct (show_precedents fl strat_key l'); reflexivity.
  - destruct (App.full_text c) as [x|] eqn:E.
    + rewrite IH by (intros r Hr; apply H; right; exact Hr).
      destruct (show_precedents fl strat_key t). reflexivity.
    + exfalso. apply (H c); [left; reflexivity | exact E].
Qed.

Lemma no_text_no_binding (g : Store.Graph) (i : string) :
  Store.rels_of g Store.HAS_TEXT = [] -> Store.optional_text g i = [None].
Proof.
  intros H. unfold Store.optional_text, Store.outgoing. rewrite H. reflexivity.
Qed.

End ViewFacts.

(** X9.  When [render_citation_graph] returns, its first node is the "USER"
    node, no two nodes share an identifier, every edge joins two of the
    nodes, and every result has a node under its id. *)
Theorem citation_map_is_well_formed
        (results : list App.Result) (strategy : string)
        (ns : list AppView.Node) (es : list AppView.Edge)
        (cfg : AppView.Config)
        (Hrun : AppView.render_citation_graph results strategy
                = Ok (ns, es, cfg)) :
  (exists rest, ns = AppView.user_node :: rest)
  /\ NoDup (map AppView.node_id ns)
  /\ (forall e, In e es ->
        In (AppView.source e) (map AppView.node_id ns)
        /\ In (AppView.target e) (map AppView.node_id ns))
  /\ (forall r, In r results -> In (App.id r) (map AppView.node_id ns)).
Proof.
  unfold AppView.render_citation_graph in Hrun.
  destruct (AppView.add_cases strategy results
              (AppView.mkCanvas [AppView.user_node] [] ["USER"]))
    as [c|] eqn:E; [|discriminate].
  injection Hrun as <- <- _.
  pose proof (add_cases_well_formed _ _ _ _ start_well_formed E)
    as (Hnd & Hex & _ & He).
  split; [|split; [|split]].
  - eapply add_cases_head; [|exact E]. reflexivity.
  - exact Hnd.
  - exact He.
  - intros r Hr. apply Hex. eapply add_cases_existing; [exact E|].
    right. apply in_map, Hr.
Qed.

Lemma citation_map_is_well_formed_witness :
  NoDup ["USER"; "Y"; "SRC_Case_X"]%string.
Proof.
  apply (citation_map_is_well_formed
           [App.mkResult "Y" (Some "Case Y") (Some "Theft")
                         (Some "Conviction affirmed") None 2 ["Case X"]
                         (9 # 10)]
           "defense"
           [AppView.user_node;
            AppView.mkNode "Y" "Case Y..." "Case Y" 25 AppView.BAD
                           (AppView.mkFont "#2C2520" None (Some 12)) None;
            AppView.mkNode "SRC_Case_X" "Case X.." "Case X" 15 AppView.NEUTRAL
                           (AppView.mkFont "#666" None (Some 10)) (Some "dot")]
           [AppView.mkEdge "USER" "Y" "#A68A64" 2 None;
            AppView.mkEdge "SRC_Case_X" "Y" "#D6D1C9" 1 (Some "curved")]
           AppView.config).
  vm_compute. reflexivity.
Defined.

(** X10.  For results with distinct ids, none of them "USER" or starting
    with "SRC_", [render_citation_graph] raises exactly when one of the
    results has no title. *)
Theorem citation_map_raises_iff_untitled
        (results : list App.Result) (strategy : string)
        (Hdistinct : NoDup (map App.id results))
        (Hids : forall r, In r results ->
                          App.id r <> "USER"
                          /\ String.prefix "SRC_" (App.id r) = false) :
  AppView.render_citation_graph results strategy = Raised
  <-> exists r, In r results /\ App.title r = None.
Proof.
  rewrite <- (add_cases_raises strategy results []
                               (AppView.mkCanvas [AppView.user_node] [] ["USER"])
                               start_known Hdistinct Hids).
  unfold AppView.render_citation_graph.
  destruct (AppView.add_cases strategy results
              (AppView.mkCanvas [AppView.user_node] [] ["USER"]));
    split; congruence.
Qed.

Lemma citation_map_raises_iff_untitled_witness :
  AppView.render_citation_graph
    [App.mkResult "Y" None (Some "Theft") None None 1 [] (9 # 10)] "defense"
  = Raised.
Proof.
  apply (citation_map_raises_iff_untitled
           [App.mkResult "Y" None (Some "Theft") None None 1 [] (9 # 10)]
           "defense").
  - constructor; [intros []|constructor].
  - intros r [<-|[]]. split; [discriminate|reflexivity].
  - eexists. split; [left; reflexivity|reflexivity].
Defined.

(** X11.  A result whose id already came earlier in the list is skipped by
    [render_citation_graph]: the map is the one of the list without it. *)
Theorem citation_map_skips_repeated_case
        (before after : list App.Result) (case : App.Result)
        (strategy : string)
        (Hseen : In (App.id case) (map App.id before)) :
  AppView.render_citation_graph (before ++ case :: after) strategy
  = AppView.render_citation_graph (before ++ after) strategy.
Proof.
  unfold AppView.render_citation_graph. rewrite !add_cases_app.
  destruct (AppView.add_cases strategy before
              (AppView.mkCanvas [AppView.user_node] [] ["USER"]))
    as [c|] eqn:E; [|reflexivity].
  simpl. rewrite add_case_seen; [reflexivity|].
  eapply add_cases_existing; [exact E|]. right. exact Hseen.
Qed.

Lemma citation_map_skips_repeated_case_witness :
  let y1 := App.mkResult "Y" (Some "Case Y") None None (Some "first opinion")
                         1 ["Case X"] (9 # 10) in
  let y2 := App.mkResult "Y" (Some "Case Y") None None (Some "second opinion")
                         1 ["Case X"] (9 # 10) in
  AppView.render_citation_graph ([y1] ++ y2 :: []) "defense"
  = AppView.render_citation_graph ([y1] ++ []) "defense".
Proof.
  intros y1 y2.
  apply (citation_map_skips_repeated_case [y1] [] y2 "defense").
  left. reflexivity.
Defined.

(** X12.  Whatever tier the cascade ends in, its method label does not
    contain "Vector": the caveat of [generate_strategic_analysis] is the
    empty string for every label [main] passes, "Bronze" included. *)
Theorem cascade_labels_never_add_the_caveat
        (w : World) (emb : Embedding) (strat : string) (st : St) :
  exists l m st',
    App.cascade w emb strat st = (Ok (l, m), st')
    /\ AppView.caveat m = "".
Proof.
  destruct (cascade_label w emb strat st) as (l & m & st' & Hc & Hm).
  exists l, m, st'. split; [exact Hc|].
  destruct Hm as [[-> _]|[[-> _]| ->]]; reflexivity.
Qed.

(** X13.  The loop of [main] over the results shows a card and an opinion
    for each result that has a text, and raises at the first result without
    one, right after showing its card: the results after it are not
    shown. *)
Theorem cards_stop_at_first_missing_text
        (fl : Q -> Q) (strat_key : string)
        (shown : list App.Result) (case : App.Result)
        (hidden : list App.Result)
        (Htexts : forall r, In r shown -> App.full_text r <> None)
        (Hnone : App.full_text case = None) :
  AppView.show_precedents fl strat_key (shown ++ case :: hidden)
  = (fst (AppView.show_precedents fl strat_key shown)
     ++ [AppView.card_of fl strat_key case], Raised)
  /\ snd (AppView.show_precedents fl strat_key shown) = Ok tt
  /\ List.length (fst (AppView.show_precedents fl strat_key shown))
     = (2 * List.length shown)%nat.
Proof.
  split; [|apply show_precedents_all, Htexts].
  rewrite show_precedents_app by exact Htexts.
  simpl. rewrite Hnone. reflexivity.
Qed.

Lemma cards_stop_at_first_missing_text_witness :
  snd (AppView.show_precedents
         (fun x => x) "defense"
         ([App.mkResult "Y" (Some "Case Y") None None (Some "<b>text</b>") 1 []
                        (9 # 10)]
          ++ App.mkResult "B" (Some "Case B") None None None 1 [] (8 # 10)
          :: []))
  = Raised.
Proof.
  destruct (cards_stop_at_first_missing_text
              (fun x => x) "defense"
              [App.mkResult "Y" (Some "Case Y") None None (Some "<b>text</b>")
                            1 [] (9 # 10)]
              (App.mkResult "B" (Some "Case B") None None None 1 [] (8 # 10))
              []) as (H & _).
  - intros r [<-|[]]. discriminate.
  - reflexivity.
  - rewrite H. reflexivity.
Defined.

(** X14.  In a store without any [HAS_TEXT] relationship every result of
    [vector_only_search] has no text, so the loop of [main] raises right
    after the card of the first result. *)
Theorem bronze_without_texts_breaks_the_cards
        (w : World) (emb : Embedding) (k : nat) (st st' : St)
        (r : App.Result) (rest : list App.Result)
        (fl : Q -> Q) (strat_key : string)
        (Hno : Store.rels_of (graph w) Store.HAS_TEXT = [])
        (Hrun : App.vector_only_search w emb k st = (Ok (r :: rest), st')) :
  (forall x, In x (r :: rest) -> App.full_text x = None)
  /\ AppView.show_precedents fl strat_key (r :: rest)
     = ([AppView.card_of fl strat_key r], Raised).
Proof.
  assert (Hall : forall x, In x (r :: rest) -> App.full_text x = None).
  { intros x Hx. rewrite vector_only_search_run in Hrun.
    injection Hrun as Hl _.
    assert (Hin : In x (App.vector_only_rows w emb k)).
    { destruct (driver w); [destruct (store_down w (clock st))|];
        try discriminate. rewrite Hl. exact Hx. }
    unfold App.vector_only_rows in Hin.
    rewrite order_by_In, in_flat_map in Hin.
    destruct Hin as (cs & _ & Hin).
    rewrite no_text_no_binding in Hin by exact Hno.
    destruct Hin as [<-|[]]. reflexivity. }
  split; [exact Hall|]. simpl.
  rewrite (Hall r (or_introl eq_refl)). reflexivity.
Qed.

Lemma bronze_without_texts_breaks_the_cards_witness :
  snd (AppView.show_precedents
         (fun x => x) "defense"
         [App.mkResult "X" (Some "Case X") (Some "Theft") None None 0 []
                       (9 # 10)])
  = Raised.
Proof.
  destruct (bronze_without_texts_breaks_the_cards
              (Fixtures.world Fixtures.two_paths [(Fixtures.X, 9 # 10)%Q])
              Fixtures.emb 5 initial (mkSt 1 [VectorOnlySearch])
              (App.mkResult "X" (Some "Case X") (Some "Theft") None None 0 []
                            (9 # 10))
              [] (fun x => x) "defense" eq_refl eq_refl) as (_ & H).
  rewrite H. reflexivity.
Defined.

(** X15.  The analyze block of [main] never raises and keeps the session
    consistent: results on the page come with a memo and a method, and an
    empty result list (the "No Relevant Cases Found" panel) with the method
    "Bronze". *)
Theorem on_analyze_keeps_session_consistent
        (w : World) (llm : AppView.Llm) (analyze : bool)
        (input_text strat_key : string) (s : AppView.Session) (st : St)
        (Hs : ViewTerms.consistent s) :
  exists s' st',
    AppView.on_analyze w llm analyze input_text strat_key s st = (Ok s', st')
    /\ ViewTerms.consistent s'.
Proof.
  unfold AppView.on_analyze.
  destruct (analyze && negb (String.eqb input_text ""))%bool;
    [|exists s, st; split; [reflexivity | exact Hs]].
  unfold bind. rewrite get_embedding_run.
  destruct (embed_content w input_text) as [[|x v]|];
    try (do 2 eexists; split; [reflexivity | exact Hs]).
  destruct (cascade_label w (x :: v) strat_key
                          (mkSt (clock st) (log st ++ [EmbedContent input_text])))
    as (l & m & st' & Hc & Hm).
  rewrite Hc. simpl.
  destruct l as [|r l]; simpl; do 2 eexists; (split; [reflexivity|]).
  - unfold ViewTerms.consistent. simpl.
    destruct Hm as [[_ H]|[[_ H]| ->]]; try congruence.
  - unfold ViewTerms.consistent. simpl. split; discriminate.
Qed.

Lemma on_analyze_keeps_session_consistent_witness :
  exists s' st',
    AppView.on_analyze
      (Fixtures.world Fixtures.two_paths [(Fixtures.X, 9 # 10)%Q])
      (fun _ => inl "memo") true "facts" "defense" AppView.cleared initial
    = (Ok s', st')
    /\ ViewTerms.consistent s'.
Proof.
  apply (on_analyze_keeps_session_consistent
           (Fixtures.world Fixtures.two_paths [(Fixtures.X, 9 # 10)%Q])
           (fun _ => inl "memo") true "facts" "defense" AppView.cleared
           initial).
  exact I.
Defined.

(** X16.  When the embedding fails (the service raises or answers with an
    empty vector) the analyze block keeps the results, the memo and the
    method of the session as they were and only replaces [case_input]: the
    page goes on showing what it showed. *)
Theorem failed_embedding_keeps_the_page
        (w : World) (llm : AppView.Llm) (input_text strat_key : string)
        (s : AppView.Session) (st : St)
        (Htext : input_text <> "")
        (Hemb : embed_content w input_text = None
                \/ embed_content w input_text = Some []) :
  AppView.on_analyze w llm true input_text strat_key s st
  = (Ok (AppView.mkSession (AppView.results s) (AppView.analysis s)
                           (AppView.search_method s) input_text),
     mkSt (clock st) (log st ++ [EmbedContent input_text]))
  /\ AppView.panel
       (AppView.mkSession (AppView.results s) (AppView.analysis s)
                          (AppView.search_method s) input_text)
     = AppView.panel s.
Proof.
  split; [|reflexivity].
  unfold AppView.on_analyze. apply String.eqb_neq in Htext. rewrite Htext.
  simpl. unfold bind. rewrite get_embedding_run.
  destruct Hemb as [-> | ->]; reflexivity.
Qed.

Lemma failed_embedding_keeps_the_page_witness :
  fst (AppView.on_analyze
         (mkWorld Fixtures.two_paths (fun _ _ _ => []) (fun _ => None)
                  (fun _ => false) true)
         (fun _ => inl "memo") true "facts" "defense" AppView.cleared initial)
  = Ok (AppView.mkSession None None None "facts").
Proof.
  destruct (failed_embedding_keeps_the_page
              (mkWorld Fixtures.two_paths (fun _ _ _ => []) (fun _ => None)
                       (fun _ => false) true)
              (fun _ => inl "memo") "facts" "defense" AppView.cleared initial)
    as (H & _).
  - discriminate.
  - left. reflexivity.
  - rewrite H. reflexivity.
Defined.

(* ------------------------------------------------------------------ *)
(** ** The test set and the evaluation loop *)

Section HarnessFacts.

Import Store Harness.

Lemma citing_pairs_In (g : Graph) (c cited : Node) :
  In (c, cited) (citing_pairs g) ->
  exists ir, In ir (rels_of g CITES)
             /\ get_node g (start_node (snd ir)) = Some c
             /\ get_node g (end_node (snd ir)) = Some cited.
Proof.
  unfold citing_pairs. rewrite in_flat_map. intros (ir & Hir & H).
  exists ir. split; [exact Hir|].
  destruct (get_node g (start_node (snd ir))) as [c'|]; [|contradiction].
  destruct (get_node g (end_node (snd ir))) as [d'|]; [|contradiction].
  destruct (Label_eqb (label c') CASE && Label_eqb (label d') CASE)%bool;
    [|contradiction].
  destruct H as [E|[]]. injection E as -> ->. auto.
Qed.

Lemma cited_by_le (g : Graph) (cited : Node) :
  (cited_by g cited <= in_degree g (elementId cited))%nat.
Proof.
  unfold cited_by, in_degree.
  induction (rels_of g CITES) as [|ir t IH]; simpl; [lia|].
  destruct (String.eqb (end_node (snd ir)) (elementId cited)); simpl.
  - destruct (Benchmark.is_some (get_node g (start_node (snd ir)))); simpl; lia.
  - exact IH.
Qed.

Lemma authority_pairs_In (g : Graph) (c cited : Node) :
  In (c, cited) (authority_pairs g) ->
  Store.offense c <> None /\ Store.offense cited <> None
  /\ (2 <= in_degree g (elementId cited))%nat
  /\ get_node g (elementId cited) = Some cited
  /\ exists ir, In ir (rels_of g CITES)
                /\ start_node (snd ir) = elementId c
                /\ end_node (snd ir) = elementId cited.
Proof.
  unfold authority_pairs. rewrite filter_In. cbn [fst snd]. intros [Hin Hf].
  rewrite !andb_true_iff in Hf. destruct Hf as [(_ & Hc & Hd) Hn].
  apply is_some_true in Hc. apply is_some_true in Hd.
  apply Nat.leb_le in Hn. pose proof (cited_by_le g cited).
  apply citing_pairs_In in Hin. destruct Hin as (ir & Hir & Hs & He).
  apply get_node_id in Hs. pose proof (get_node_id _ _ _ He) as [Hie _].
  destruct Hs as [Hs _]. rewrite <- Hie in He.
  split; [exact Hc|]. split; [exact Hd|]. split; [lia|]. split; [exact He|].
  exists ir. auto.
Qed.

Lemma actual_citations_In (g : Graph) (c cited : Node) :
  In cited (actual_citations g c) <-> In (c, cited) (authority_pairs g).
Proof.
  unfold actual_citations. rewrite distinct_In, in_map_iff. split.
  - intros ([c' d] & <- & H). apply filter_In in H. destruct H as [H E].
    simpl in *. destruct (Node_dec c' c) as [->|]; [exact H|discriminate].
  - intros H. exists (c, cited). split; [reflexivity|].
    apply filter_In. split; [exact H|]. simpl.
    destruct (Node_dec c c); congruence.
Qed.

(** What every row of the query of [get_test_set] holds. *)
Lemma test_set_query_In (g : Graph) (tc : TestCase) :
  In tc (test_set_query g) ->
  ground_truth tc <> []
  /\ source_offense tc <> None
  /\ NoDup (map Benchmark.id (ground_truth tc))
  /\ forall item, In item (ground_truth tc) ->
       Benchmark.offense item <> None
       /\ (2 <= in_degree g (Benchmark.id item))%nat
       /\ exists ir, In ir (rels_of g CITES)
                     /\ start_node (snd ir) = id tc
                     /\ end_node (snd ir) = Benchmark.id item.
Proof.
  unfold test_set_query. intros H. apply firstn_In in H.
  apply in_flat_map in H. destruct H as (c & Hc & H).
  destruct (Nat.ltb 0 (List.length (actual_citations g c))) eqn:El;
    [|contradiction].
  apply in_map_iff in H. destruct H as (t & <- & _). simpl.
  apply Nat.ltb_lt in El.
  split; [|split; [|split]].
  - destruct (actual_citations g c); simpl in *; [lia|discriminate].
  - destruct (actual_citations g c) as [|d ds] eqn:Ea; [simpl in El; lia|].
    assert (Hd : In d (actual_citations g c)) by (rewrite Ea; left; reflexivity).
    apply actual_citations_In, authority_pairs_In in Hd. tauto.
  - rewrite map_map. simpl. apply NoDup_map_in_inj.
    + intros x y Hx Hy E.
      apply actual_citations_In, authority_pairs_In in Hx.
      apply actual_citations_In, authority_pairs_In in Hy.
      destruct Hx as (_ & _ & _ & Hx & _), Hy as (_ & _ & _ & Hy & _).
      rewrite E in Hx. congruence.
    + apply distinct_NoDup.
  - intros item Hitem. apply in_map_iff in Hitem.
    destruct Hitem as (d & <- & Hd). simpl.
    apply actual_citations_In, authority_pairs_In in Hd. tauto.
Qed.

Lemma get_test_set_run (sample : list TestCase -> nat -> list TestCase)
      (w : World) (n : nat) (st : St) :
  get_test_set sample w n st
  = (if store_down w (clock st) then Raised
     else Ok (if Nat.ltb n (List.length (test_set_query (graph w)))
              then sample (test_set_query (graph w)) n
              else test_set_query (graph w)),
     mkSt (S (clock st)) (log st)).
Proof.
  unfold get_test_set, bind, session_run, ret.
  destruct (store_down w (clock st)); [reflexivity|].
  destruct (Nat.ltb n (List.length (test_set_query (graph w)))); reflexivity.
Qed.

Lemma take_take (n m : nat) (s : string) :
  (n <= m)%nat -> Str.take m (Str.take n s) = Str.take n s.
Proof.
  revert m s. induction n as [|n IH]; intros m s H; simpl.
  - destruct m; reflexivity.
  - destruct s as [|c t]; [destruct m; reflexivity|].
    destruct m as [|m]; [lia|]. simpl. rewrite IH by lia. reflexivity.
Qed.

(** What the loop submits to the embedding service for one case. *)
Lemma benchmark_get_embedding_run (w : World) (t : string) (st : St) :
  Benchmark.get_embedding w (Str.take 4000 t) st
  = (Ok (embed_content w (Str.take 4000 t)),
     mkSt (clock st) (log st ++ [EmbedContent (Str.take 4000 t)])).
Proof.
  unfold Benchmark.get_embedding, try_except, bind, genai_embed_content, ret.
  rewrite take_take by (apply Nat.leb_le; vm_compute; reflexivity).
  destruct (embed_content w (Str.take 4000 t)); reflexivity.
Qed.

Lemma calculate_score_is_score (normalize : string -> string)
      (g l : list Benchmark.Item) :
  is_score (Benchmark.calculate_score normalize g l).
Proof.
  unfold is_score. rewrite calculate_score_existsb.
  destruct (existsb (Views.is_hard g) l); auto.
  destruct (existsb (Views.is_soft normalize g) l); auto.
Qed.

(** The loop, from any scores and any state. *)
Lemma evaluate_scores (normalize : string -> string) (w : World)
      (cases : list TestCase) (vs gs : list Q)
      (st st' : St) (vs' gs' : list Q) :
  evaluate normalize w cases vs gs st = (Ok (vs', gs'), st') ->
  exists nv ng,
    vs' = vs ++ nv /\ gs' = gs ++ ng
    /\ List.length nv = List.length (filter (embeds w) cases)
    /\ List.length ng = List.length (filter (embeds w) cases)
    /\ Forall is_score nv /\ Forall is_score ng.
Proof.
  revert vs gs st. induction cases as [|case rest IH]; intros vs gs st;
    cbn [evaluate filter].
  - unfold ret. intros H. injection H as <- <- _.
    exists [], []. rewrite !app_nil_r. repeat split; constructor.
  - destruct (text case) as [t|] eqn:Et; [|discriminate].
    assert (Eb : embeds w case
                 = match embed_content w (Str.take 4000 t) with
                   | Some (_ :: _) => true
                   | _ => false
                   end) by (unfold embeds; rewrite Et; reflexivity).
    rewrite Eb. clear Eb.
    unfold bind at 1. rewrite benchmark_get_embedding_run.
    destruct (embed_content w (Str.take 4000 t)) as [[|x v]|];
      try (intros H; apply IH in H; exact H).
    unfold bind. rewrite retrieve_cases_run.
    match goal with
    | |- context [store_down w ?c] => destruct (store_down w c)
    end; [discriminate|].
    rewrite retrieve_cases_run.
    match goal with
    | |- context [store_down w ?c] => destruct (store_down w c)
    end; [discriminate|].
    intros H. apply IH in H.
    destruct H as (nv & ng & -> & -> & Hv & Hg & Fv & Fg).
    eexists (_ :: nv), (_ :: ng). rewrite <- !app_assoc. simpl.
    repeat split; try (f_equal; assumption);
      constructor; try assumption; apply calculate_score_is_score.
Qed.

Lemma evaluate_log (normalize : string -> string) (w : World)
      (cases : list TestCase) (vs gs : list Q) (st : St) :
  exists new,
    log (snd (evaluate normalize w cases vs gs st)) = log st ++ new
    /\ submits_at_most 4000 new.
Proof.
  revert vs gs st. induction cases as [|case rest IH]; intros vs gs st;
    cbn [evaluate].
  - exists []. rewrite app_nil_r. split; [reflexivity|constructor].
  - destruct (text case) as [t|]; [|exists []; rewrite app_nil_r;
                                     split; [reflexivity|constructor]].
    unfold bind at 1. rewrite benchmark_get_embedding_run.
    assert (Hemb : submits_at_most 4000 [EmbedContent (Str.take 4000 t)]).
    { constructor; [apply take_length|constructor]. }
    destruct (embed_content w (Str.take 4000 t)) as [[|x v]|].
    + destruct (IH vs gs (mkSt (clock st)
                               (log st ++ [EmbedContent (Str.take 4000 t)])))
        as (new & -> & Hn).
      eexists. simpl. rewrite <- app_assoc. split; [reflexivity|].
      apply Forall_app. split; assumption.
    + unfold bind. rewrite retrieve_cases_run.
      match goal with
      | |- context [store_down w ?c] => destruct (store_down w c)
      end.
      { eexists. simpl. rewrite <- app_assoc. split; [reflexivity|].
        apply Forall_app. split; [exact Hemb|]. constructor; [exact I|constructor]. }
      rewrite retrieve_cases_run.
      match goal with
      | |- context [store_down w ?c] => destruct (store_down w c)
      end.
      { eexists. simpl. rewrite <- !app_assoc. split; [reflexivity|].
        apply Forall_app. split; [exact Hemb|].
        repeat (constructor; [exact I|]). constructor. }
      match goal with
      | |- context [evaluate normalize w rest ?a ?b ?s] =>
          destruct (IH a b s) as (new & -> & Hn)
      end.
      eexists. simpl. rewrite <- !app_assoc. split; [reflexivity|].
      apply Forall_app. split; [exact Hemb|].
      simpl. repeat (constructor; [exact I|]). exact Hn.
    + destruct (IH vs gs (mkSt (clock st)
                               (log st ++ [EmbedContent (Str.take 4000 t)])))
        as (new & -> & Hn).
      eexists. simpl. rewrite <- app_assoc. split; [reflexivity|].
      apply Forall_app. split; assumption.
Qed.

End HarnessFacts.

(** X17.  Every record [get_test_set] returns has a source offense and a
    ground truth that is not empty and lists no id twice; every ground-truth
    target has an offense, is the end of at least two [CITES] relationships,
    and is cited by the source of the record. *)
Theorem test_set_records_cite_authorities
        (sample : list Harness.TestCase -> nat -> list Harness.TestCase)
        (w : World) (sample_size : nat) (st st' : St)
        (l : list Harness.TestCase) (tc : Harness.TestCase)
        (Hsample : Harness.draws sample)
        (Hrun : Harness.get_test_set sample w sample_size st = (Ok l, st'))
        (Hin : In tc l) :
  Harness.ground_truth tc <> []
  /\ Harness.source_offense tc <> None
  /\ NoDup (map Benchmark.id (Harness.ground_truth tc))
  /\ forall item, In item (Harness.ground_truth tc) ->
       Benchmark.offense item <> None
       /\ (2 <= Harness.in_degree (graph w) (Benchmark.id item))%nat
       /\ exists ir, In ir (Store.rels_of (graph w) Store.CITES)
                     /\ Store.start_node (snd ir) = Harness.id tc
                     /\ Store.end_node (snd ir) = Benchmark.id item.
Proof.
  rewrite get_test_set_run in Hrun.
  destruct (store_down w (clock st)); [discriminate|].
  injection Hrun as Hl _. apply test_set_query_In.
  destruct (Nat.ltb sample_size
                    (List.length (Harness.test_set_query (graph w)))) eqn:E;
    subst l; [|exact Hin].
  apply Nat.ltb_lt in E.
  destruct (Hsample (Harness.test_set_query (graph w)) sample_size) as [_ Hincl];
    [lia|]. apply Hincl, Hin.
Qed.

(** X18.  [get_test_set] returns at most [sample_size] records, and never
    more than the 2000 rows its query is limited to. *)
Theorem test_set_is_at_most_the_sample_size
        (sample : list Harness.TestCase -> nat -> list Harness.TestCase)
        (w : World) (sample_size : nat) (st st' : St)
        (l : list Harness.TestCase)
        (Hsample : Harness.draws sample)
        (Hrun : Harness.get_test_set sample w sample_size st = (Ok l, st')) :
  (List.length l <= sample_size)%nat /\ (List.length l <= 2000)%nat.
Proof.
  rewrite get_test_set_run in Hrun.
  destruct (store_down w (clock st)); [discriminate|].
  injection Hrun as Hl _.
  assert (H2000 : (List.length (Harness.test_set_query (graph w)) <= 2000)%nat)
    by apply firstn_le_length.
  destruct (Nat.ltb sample_size
                    (List.length (Harness.test_set_query (graph w)))) eqn:E;
    subst l.
  - apply Nat.ltb_lt in E.
    destruct (Hsample (Harness.test_set_query (graph w)) sample_size) as [-> _];
      lia.
  - apply Nat.ltb_ge in E. lia.
Qed.

(** X19.  When the loop of [main] ends, the two lists of scores have the
    same length, the number of test cases that got an embedding (a case
    whose embedding fails is skipped in both), and every score is 0.0, 0.5
    or 1.0. *)
Theorem evaluation_scores_every_embedded_case
        (normalize : string -> string)
        (w : World) (test_cases : list Harness.TestCase) (st st' : St)
        (vector_scores graph_scores : list Q)
        (Hrun : Harness.evaluate normalize w test_cases [] [] st
                = (Ok (vector_scores, graph_scores), st')) :
  List.length vector_scores
  = List.length (filter (Harness.embeds w) test_cases)
  /\ List.length graph_scores = List.length vector_scores
  /\ Forall Harness.is_score vector_scores
  /\ Forall Harness.is_score graph_scores.
Proof.
  apply evaluate_scores in Hrun.
  destruct Hrun as (nv & ng & -> & -> & Hv & Hg & Fv & Fg). simpl.
  repeat split; try assumption. congruence.
Qed.

(** X20.  Whatever happens in the loop of [main], every text it submits to
    the embedding service has at most 4000 characters: the cut at 9000
    characters of [get_embedding] never removes anything there. *)
Theorem evaluation_submits_at_most_4000_characters
        (normalize : string -> string)
        (w : World) (test_cases : list Harness.TestCase)
        (vector_scores graph_scores : list Q) (st : St) :
  exists events,
    log (snd (Harness.evaluate normalize w test_cases vector_scores
                               graph_scores st))
    = log st ++ events
    /\ Harness.submits_at_most 4000 events.
Proof.
  apply evaluate_log.
Qed.

(** X21.  Nothing is caught in the loop of [main]: a test case whose text is
    missing, or a store that is down at the first retrieval of a case that
    got its embedding, makes the whole evaluation raise, whatever scores
    were gathered and whatever cases remain. *)
Theorem evaluation_aborts_on_failure
        (normalize : string -> string)
        (w : World) (case : Harness.TestCase) (rest : list Harness.TestCase)
        (vector_scores graph_scores : list Q) (st : St)
        (Hfail : Harness.text case = None
                 \/ (Harness.embeds w case = true
                     /\ store_down w (clock st) = true)) :
  fst (Harness.evaluate normalize w (case :: rest) vector_scores
                        graph_scores st)
  = Raised.
Proof.
  cbn [Harness.evaluate].
  destruct Hfail as [-> | [Hemb Hdown]]; [reflexivity|].
  unfold Harness.embeds in Hemb.
  destruct (Harness.text case) as [t|]; [|discriminate].
  unfold bind at 1. rewrite benchmark_get_embedding_run.
  destruct (embed_content w (Str.take 4000 t)) as [[|x v]|];
    try discriminate.
  unfold bind. rewrite retrieve_cases_run. cbn [clock].
  rewrite Hdown. reflexivity.
Qed.

Lemma first_k_draws : Harness.draws Samples.first_k.
Proof.
  intros population k Hk. unfold Samples.first_k. split.
  - apply firstn_length_le, Hk.
  - intros x. apply firstn_In.
Qed.

Lemma test_set_records_cite_authorities_witness :
  NoDup (map Benchmark.id (Harness.ground_truth Samples.record)).
Proof.
  apply (test_set_records_cite_authorities
           Samples.first_k Samples.world 150 initial (mkSt 1 [])
           [Samples.record] Samples.record first_k_draws).
  - vm_compute. reflexivity.
  - left. reflexivity.
Defined.

Lemma test_set_is_at_most_the_sample_size_witness :
  (List.length [Samples.record] <= 150)%nat.
Proof.
  apply (test_set_is_at_most_the_sample_size
           Samples.first_k Samples.world 150 initial (mkSt 1 [])
           [Samples.record] first_k_draws).
  vm_compute. reflexivity.
Defined.

Lemma evaluation_scores_every_embedded_case_witness :
  List.length [(1 # 2)%Q]
  = List.length (filter (Harness.embeds Samples.world) [Samples.record]).
Proof.
  apply (evaluation_scores_every_embedded_case
           Benchmark.ascii_normalize Samples.world [Samples.record] initial
           (mkSt 2 [EmbedContent "the facts of A"; RetrieveCases "A" false;
                    RetrieveCases "A" true])
           [(1 # 2)%Q] [1%Q]).
  vm_compute. reflexivity.
Defined.

Lemma evaluation_aborts_on_failure_witness :
  fst (Harness.evaluate
         Benchmark.ascii_normalize Samples.world
         (Harness.mkTestCase "A" None (Some "Theft")
                             [Benchmark.mkItem "P" (Some "Theft")]
          :: [Samples.record])
         [] [] initial)
  = Raised.
Proof.
  apply (evaluation_aborts_on_failure
           Benchmark.ascii_normalize Samples.world
           (Harness.mkTestCase "A" None (Some "Theft")
                               [Benchmark.mkItem "P" (Some "Theft")])
           [Samples.record] [] [] initial).
  left. reflexivity.
Defined.

(* ------------------------------------------------------------------ *)
(** ** The round trips of the cascade *)

Section RoundTrips.

Import Views.
Variable w : World.

Lemma graph_rag_search_call (emb : Embedding) (strat : string) (k : nat)
      (f : bool) (st st' : St) (l : list App.Result) :
  App.graph_rag_search w emb strat k f st = (Ok l, st') ->
  one_call w st st' (GraphRagSearch strat f).
Proof.
  rewrite graph_rag_search_run. intros H. injection H as _ <-.
  unfold one_call. simpl. destruct (driver w); split; auto; lia.
Qed.

Lemma vector_only_search_call (emb : Embedding) (k : nat) (st st' : St)
      (l : list App.Result) :
  App.vector_only_search w emb k st = (Ok l, st') ->
  one_call w st st' VectorOnlySearch.
Proof.
  rewrite vector_only_search_run. intros H. injection H as _ <-.
  unfold one_call. simpl. destruct (driver w); split; auto; lia.
Qed.

End RoundTrips.

(** X22.  The cascade never raises and calls one, two or three tiers, in the
    order Gold, Silver, Bronze; each call makes one round trip to the store,
    so the whole cascade makes at most three. *)
Theorem cascade_makes_at_most_three_round_trips
        (w : World) (emb : Embedding) (strat : string) (st : St) :
  exists rm st' calls,
    App.cascade w emb strat st = (Ok rm, st')
    /\ log st' = log st ++ calls
    /\ (calls = [GraphRagSearch strat true]
        \/ calls = [GraphRagSearch strat true; GraphRagSearch strat false]
        \/ calls = [GraphRagSearch strat true; GraphRagSearch strat false;
                    VectorOnlySearch])
    /\ clock st'
       = (clock st + (if driver w then List.length calls else 0))%nat.
Proof.
  destruct (graph_rag_search_returns w emb strat 5 true st)
    as (gold & st1 & Hg).
  destruct (graph_rag_search_call _ _ _ _ _ _ _ _ Hg) as [L1 C1].
  destruct gold as [|r gold].
  - destruct (graph_rag_search_returns w emb strat 5 false st1)
      as (silver & st2 & Hs).
    destruct (graph_rag_search_call _ _ _ _ _ _ _ _ Hs) as [L2 C2].
    destruct silver as [|r silver].
    + destruct (vector_only_search_returns w emb 5 st2) as (bronze & st3 & Hb).
      destruct (vector_only_search_call _ _ _ _ _ _ Hb) as [L3 C3].
      exists (bronze, "Bronze"), st3,
        [GraphRagSearch strat true; GraphRagSearch strat false;
         VectorOnlySearch].
      split; [eapply cascade_bronze; eassumption|]. split.
      * rewrite L3, L2, L1, <- !app_assoc. reflexivity.
      * split; [auto|]. rewrite C3, C2, C1. destruct (driver w); simpl; lia.
    + exists (r :: silver, "Silver"), st2,
        [GraphRagSearch strat true; GraphRagSearch strat false].
      split; [eapply cascade_silver; try eassumption; discriminate|]. split.
      * rewrite L2, L1, <- !app_assoc. reflexivity.
      * split; [auto|]. rewrite C2, C1. destruct (driver w); simpl; lia.
  - exists (r :: gold, "Gold"), st1, [GraphRagSearch strat true].
    split; [eapply cascade_gold; try eassumption; discriminate|]. split.
    + exact L1.
    + split; [auto|]. rewrite C1. destruct (driver w); simpl; lia.
Qed.
